(** * networkchain: the peer-to-peer node of blockchainstart

    A shallow embedding of [networkchain/network.go] (package [network]):
    the wire codec ([commandToBytes], [bytesToCommand]), the outbound
    helper [sendData] with the [send*] constructors, the message handlers,
    [handleConnection] and the accept loop of [StartNode].

    Go values are modelled as follows.
    - [string] is a byte sequence: Rocq's [string] (a list of 8-bit
      characters); [[]byte] is [list byte].
    - [int], [int64] and [rune] are [Z]; the code only compares them, and
      converts a rune to a byte by keeping its low eight bits.
    - a function that may panic returns a [result]; the handlers, which
      read and write the package globals and talk to the network, live in
      a state-and-panic monad [M]. *)

From Stdlib Require Import ZArith Strings.Byte.
From stdpp Require Import base decidable option list strings.

Local Open Scope Z_scope.

(** ** Bytes, runes and panics *)

#[global] Instance byte_eq_decision : EqDecision byte := Byte.byte_eq_dec.

Definition Z_of_byte (b : byte) : Z := Z.of_N (Byte.to_N b).

(** The conversion [byte(c)] of an integer: the low eight bits. *)
Definition byte_of_Z (c : Z) : byte :=
  default x00 (Byte.of_N (Z.to_N (Z.land c 255))).

(** What a goroutine can panic with. *)
Inductive panic : Type :=
  | IndexOutOfRange (i len : nat)   (* runtime error: index out of range *)
  | ReadError                       (* log.Panic(err) after conn.Read *)
  | WriteError                      (* log.Panic(err) after conn.Write *)
  | SliceOutOfRange (i len : nat)   (* runtime error: slice bounds out of range *)
  | GobDecodeError                  (* log.Panic(err) after Decode *)
  | ListenError                     (* log.Panic(err) after net.Listen *)
  | AcceptError.                    (* log.Panic(err) after ln.Accept *)

Inductive result (A : Type) : Type :=
  | Ok (a : A)
  | Panic (p : panic).
Arguments Ok {A} a.
Arguments Panic {A} p.

Definition result_bind {A B} (r : result A) (k : A → result B) : result B :=
  match r with
  | Ok a => k a
  | Panic p => Panic p
  end.

(** ** Constants of the protocol *)

Definition nodeVersion : Z := 1.
Definition commandLength : nat := 12.

Definition cmdVersion : string := "version".
Definition cmdGetBlocks : string := "getblocks".
Definition cmdInv : string := "inv".
Definition cmdGetData : string := "getdata".
Definition cmdBlock : string := "block".
Definition cmdTx : string := "tx".
Definition cmdAddr : string := "addr".
Definition cmdGetAddr : string := "getaddr".
Definition cmdPing : string := "ping".
Definition cmdPong : string := "pong".

Definition commands : list string :=
  [cmdVersion; cmdGetBlocks; cmdInv; cmdGetData; cmdBlock;
   cmdTx; cmdAddr; cmdGetAddr; cmdPing; cmdPong].

(** ** [for i, c := range command]

    Ranging over a Go string decodes UTF-8: each iteration yields the byte
    index at which a code point starts and the code point itself; a byte
    below 0x80 is its own code point, an invalid sequence yields 0xFFFD and
    advances by one byte.  [decoderune] follows the decoder the language
    uses for that loop. *)

Definition runeError : Z := 0xFFFD.

Definition isCont (b : byte) : bool :=
  (0x80 <=? Z_of_byte b) && (Z_of_byte b <=? 0xBF).

(** The code point starting at the head of [s], and its width in bytes. *)
Definition decoderune (s : list byte) : Z * nat :=
  match s with
  | [] => (runeError, 1%nat)
  | b0 :: s1 =>
    let c0 := Z_of_byte b0 in
    if c0 <? 0x80 then (c0, 1%nat)
    else if (0xC0 <=? c0) && (c0 <? 0xE0) then
      match s1 with
      | b1 :: _ =>
        let r := Z.lor (Z.shiftl (Z.land c0 0x1F) 6) (Z.land (Z_of_byte b1) 0x3F) in
        if isCont b1 && (0x7F <? r) then (r, 2%nat) else (runeError, 1%nat)
      | _ => (runeError, 1%nat)
      end
    else if (0xE0 <=? c0) && (c0 <? 0xF0) then
      match s1 with
      | b1 :: b2 :: _ =>
        let r := Z.lor (Z.lor (Z.shiftl (Z.land c0 0x0F) 12)
                              (Z.shiftl (Z.land (Z_of_byte b1) 0x3F) 6))
                       (Z.land (Z_of_byte b2) 0x3F) in
        if isCont b1 && isCont b2 && (0x7FF <? r)
           && negb ((0xD800 <=? r) && (r <=? 0xDFFF))
        then (r, 3%nat) else (runeError, 1%nat)
      | _ => (runeError, 1%nat)
      end
    else if (0xF0 <=? c0) && (c0 <? 0xF8) then
      match s1 with
      | b1 :: b2 :: b3 :: _ =>
        let r := Z.lor (Z.lor (Z.lor (Z.shiftl (Z.land c0 0x07) 18)
                                     (Z.shiftl (Z.land (Z_of_byte b1) 0x3F) 12))
                              (Z.shiftl (Z.land (Z_of_byte b2) 0x3F) 6))
                       (Z.land (Z_of_byte b3) 0x3F) in
        if isCont b1 && isCont b2 && isCont b3 && (0xFFFF <? r) && (r <=? 0x10FFFF)
        then (r, 4%nat) else (runeError, 1%nat)
      | _ => (runeError, 1%nat)
      end
    else (runeError, 1%nat)
  end.

(** The pairs [(i, c)] of the loop, from byte index [i] on; [skip] counts
    the bytes of the current code point still to be passed over. *)
Fixpoint rangeFrom (i skip : nat) (s : list byte) : list (nat * Z) :=
  match s with
  | [] => []
  | _ :: rest =>
    match skip with
    | S k => rangeFrom (S i) k rest
    | O => let '(c, w) := decoderune s in (i, c) :: rangeFrom (S i) (w - 1) rest
    end
  end.

Definition rangeString (s : string) : list (nat * Z) :=
  rangeFrom 0 0 (String.list_byte_of_string s).

(** ** The wire codec *)

(** [data[i] = v] on a fixed array: a run-time panic when [i] is out of range. *)
Definition arraySet (data : list byte) (i : nat) (v : byte) : result (list byte) :=
  if decide (i < length data)%nat then Ok (<[i:=v]> data)
  else Panic (IndexOutOfRange i (length data)).

(** The body of the loop of [commandToBytes], [data[i] = byte(c)]; once
    it has panicked nothing more is done. *)
Definition encodeStep (data : result (list byte)) (ic : nat * Z) : result (list byte) :=
  let '(i, c) := ic in result_bind data (λ d, arraySet d i (byte_of_Z c)).

Definition commandToBytes (command : string) : result (list byte) :=
  foldl encodeStep (Ok (replicate commandLength x00)) (rangeString command).

Definition bytesToCommand (data : list byte) : string :=
  let command :=
    foldl (λ command b, if decide (b ≠ x00) then command ++ [b] else command)
          [] data in
  String.string_of_list_byte command.

(** ** Payloads

    The structs of the source.  [Ping] and [Pong] carry a nonce and nothing
    else. *)

Record Version := mkVersion {
  Version_Version : Z;
  Version_BestHeight : Z;
  Version_AddrFrom : string }.

Record Inv := mkInv {
  Inv_AddrFrom : string;
  Inv_Type : string;
  Inv_Items : list (list byte) }.

Record GetData := mkGetData {
  GetData_AddrFrom : string;
  GetData_Type : string;
  GetData_ID : list byte }.

Record Block := mkBlock {
  Block_AddrFrom : string;
  Block_Block : list byte }.

Record Tx := mkTx {
  Tx_AddrFrom : string;
  Tx_Transaction : list byte }.

Record Addr := mkAddr { Addr_AddrList : list string }.

Record Ping := mkPing { Ping_Nonce : Z }.

Record Pong := mkPong { Pong_Nonce : Z }.

(** Modelled from the spec: the struct [GetAddr] is used by [sendGetAddr]
    and [handleGetAddr] but declared nowhere in the source; the message
    catalogue gives it one field, [addrFrom]. *)
Record GetAddr := mkGetAddr { GetAddr_AddrFrom : string }.

(** Modelled from the spec: the [getblocks] payload, [{addrFrom}]; its
    struct and [sendGetBlocks] are not in the source. *)
Record GetBlocks := mkGetBlocks { GetBlocks_AddrFrom : string }.

(** ** What the source takes from elsewhere *)

(** [encoding/gob] for one payload type.  Encoding these plain structs does
    not fail; decoding may, and does on an empty input (io.EOF). *)
Class Gob (T : Type) := {
  gobEnc : T → list byte;
  gobDec : list byte → option T;
  gobDec_EOF : gobDec [] = None }.

(** The ledger half of the package ([Blockchain], [Transaction] and their
    operations), which the source calls but does not contain. *)
Class Chain := {
  Blockchain : Type;
  Transaction : Type;
  NewBlockchain : Blockchain;
  GetBestHeight : Blockchain → Z;
  MempoolLen : Blockchain → nat;                 (* len(bc.Mempool) *)
  AddTxToMempool : Transaction → Blockchain → Blockchain;
  MineBlock : Blockchain → Blockchain;
  DeserializeTransaction : list byte → Transaction;
  Transaction_ID : Transaction → list byte }.

(** [handlePing] and [handlePong] read [payload.AddrFrom], a field that
    [Ping] and [Pong] do not declare.  The selectors are kept abstract:
    whatever they denote, they see the decoded payload only. *)
Class Undeclared := {
  Ping_AddrFrom : Ping → string;
  Pong_AddrFrom : Pong → string }.

(** ** The node: globals, network and output *)

(** What happens when an address is dialled and written to. *)
Inductive peer : Type :=
  | Unreachable      (* net.Dial fails *)
  | Broken           (* net.Dial succeeds, conn.Write fails *)
  | Reachable.       (* both succeed *)

Inductive logline : Type :=
  | LnReceivedVersion (version bestHeight : Z) (address : string)
  | LnUpdateSoftware
  | LnReceivedTx
  | LnAddedTx (id : list byte)
  | LnNotAvailable (address : string)
  | LnReceivedPong (nonce : Z) (address : string)
  | LnUnknownCommand
  | LnPanic (p : panic).

Inductive event : Type :=
  | Printed (l : logline)
  | Dialed (address : string)
  | Sent (address : string) (data : list byte)
  | Closed (address : string)       (* the outbound connection is closed *)
  | ClosedInbound.                  (* the accepted connection is closed *)

(** An accepted connection: the bytes that its first [Read] finds.  None
    at all stands for a peer that went away, on which [Read] fails. *)
Record Conn := mkConn { readable : list byte }.

Section Node.
Context `{Chain}.

(** The package globals [nodeAddress] and [knownNodes], the ledger the
    handlers share, the network as the node finds it, and what the node
    has printed and sent so far. *)
Record Node := mkNode {
  nodeAddress : string;
  knownNodes : list string;
  bc : Blockchain;
  network : string → peer;
  output : list event }.

(** State and panic: a computation runs from a node state to a value or
    a panic, and the state it leaves. *)
Definition M (A : Type) : Type := Node → result A * Node.

#[global] Instance M_ret : MRet M := λ A a nd, (Ok a, nd).
#[global] Instance M_bind : MBind M := λ A B k m nd,
  match m nd with
  | (Ok a, nd') => k a nd'
  | (Panic p, nd') => (Panic p, nd')
  end.

Definition get : M Node := λ nd, (Ok nd, nd).
Definition raise {A} (p : panic) : M A := λ nd, (Panic p, nd).
Definition lift {A} (r : result A) : M A := λ nd, (r, nd).

Definition emit (e : event) : M unit := λ nd,
  (Ok (), mkNode (nodeAddress nd) (knownNodes nd) (bc nd) (network nd)
                 (output nd ++ [e])).
Definition setNodeAddress (address : string) : M unit := λ nd,
  (Ok (), mkNode address (knownNodes nd) (bc nd) (network nd) (output nd)).
Definition setKnownNodes (nodes : list string) : M unit := λ nd,
  (Ok (), mkNode (nodeAddress nd) nodes (bc nd) (network nd) (output nd)).
Definition setBc (b : Blockchain) : M unit := λ nd,
  (Ok (), mkNode (nodeAddress nd) (knownNodes nd) b (network nd) (output nd)).

(** [log.Panic(err)]: print the error, then panic. *)
Definition logPanic {A} (p : panic) : M A :=
  emit (Printed (LnPanic p));; raise p.

(** [defer d] ahead of [body]: [d] runs when [body] returns and when it
    panics, and the panic goes on afterwards. *)
Definition defer {A} (d : M unit) (body : M A) : M A := λ nd,
  match body nd with
  | (r, nd') =>
    match d nd' with
    | (Ok _, nd'') => (r, nd'')
    | (Panic p, nd'') => (Panic p, nd'')
    end
  end.

(** [for _, x := range xs { body }] *)
Fixpoint forEach {A} (xs : list A) (body : A → M unit) : M unit :=
  match xs with
  | [] => mret ()
  | x :: rest => body x;; forEach rest body
  end.

(** [request[n:]] *)
Definition sliceFrom (n : nat) (request : list byte) : result (list byte) :=
  if decide (n ≤ length request)%nat then Ok (drop n request)
  else Panic (SliceOutOfRange n (length request)).

(** [knownNodes[i]] *)
Definition knownNode (i : nat) : M string :=
  nd ← get;
  match knownNodes nd !! i with
  | Some node => mret node
  | None => raise (IndexOutOfRange i (length (knownNodes nd)))
  end.

Definition gobEncode {T} `{Gob T} (data : T) : list byte := gobEnc data.

Definition gobDecode {T} `{Gob T} (data : list byte) : M T :=
  match gobDec data with
  | Some target => mret target
  | None => logPanic GobDecodeError
  end.

Fixpoint nodeIsKnownIn (nodes : list string) (address : string) : bool :=
  match nodes with
  | [] => false
  | node :: rest =>
    if decide (node = address) then true else nodeIsKnownIn rest address
  end.

Definition nodeIsKnown (address : string) : M bool :=
  nd ← get; mret (nodeIsKnownIn (knownNodes nd) address).

(** [knownNodes = append(knownNodes, address)] *)
Definition appendKnownNode (address : string) : M unit :=
  nd ← get; setKnownNodes (knownNodes nd ++ [address]).

Definition sendData (address : string) (data : list byte) : M unit :=
  nd ← get;
  emit (Dialed address);;
  match network nd address with
  | Unreachable => emit (Printed (LnNotAvailable address))
  | Broken => defer (emit (Closed address)) (logPanic WriteError)
  | Reachable => defer (emit (Closed address)) (emit (Sent address data))
  end.

(** [append(commandToBytes(cmd), payload...)] followed by [sendData] *)
Definition sendMessage (address cmd : string) (payload : list byte) : M unit :=
  head ← lift (commandToBytes cmd);
  sendData address (head ++ payload).

Context `{Gob Version, Gob Inv, Gob Tx, Gob Addr, Gob Ping, Gob Pong,
          Gob GetAddr, Gob GetBlocks}.
Context `{Undeclared}.

Definition sendVersion (address : string) : M unit :=
  nd ← get;
  let bestHeight := GetBestHeight (bc nd) in
  let payload := gobEncode (mkVersion nodeVersion bestHeight (nodeAddress nd)) in
  sendMessage address cmdVersion payload.

(** Modelled from the spec: [sendGetBlocks] is called by [handleVersion]
    but is not in the source.  It is built like every [send*] of the
    source: the command, the payload [{addrFrom}] of the message
    catalogue, [sendData]. *)
Definition sendGetBlocks (address : string) : M unit :=
  nd ← get;
  let payload := gobEncode (mkGetBlocks (nodeAddress nd)) in
  sendMessage address cmdGetBlocks payload.

(** Modelled from the spec: [sendInv] is called by [handleTx] but is not
    in the source.  It is built like every [send*] of the source, with
    the struct [Inv] that the source declares. *)
Definition sendInv (address kind : string) (items : list (list byte)) : M unit :=
  nd ← get;
  let payload := gobEncode (mkInv (nodeAddress nd) kind items) in
  sendMessage address cmdInv payload.

Definition handleVersion (request : list byte) : M unit :=
  data ← lift (sliceFrom commandLength request);
  payload ← gobDecode data;
  let peerVersion := Version_Version payload in
  let peerBestHeight := Version_BestHeight payload in
  let peerAddress := Version_AddrFrom payload in
  emit (Printed (LnReceivedVersion peerVersion peerBestHeight peerAddress));;
  (if peerVersion <? nodeVersion then sendVersion peerAddress
   else if peerVersion >? nodeVersion then emit (Printed LnUpdateSoftware)
   else mret ());;
  nd ← get;
  (if peerBestHeight >? GetBestHeight (bc nd) then sendGetBlocks peerAddress
   else mret ());;
  known ← nodeIsKnown peerAddress;
  if negb known then appendKnownNode peerAddress else mret ().

Definition handleTx (request : list byte) : M unit :=
  data ← lift (sliceFrom commandLength request);
  payload ← gobDecode data;
  let peerAddress := Tx_AddrFrom payload in
  let txData := Tx_Transaction payload in
  let tx := DeserializeTransaction txData in
  emit (Printed LnReceivedTx);;
  nd ← get;
  setBc (AddTxToMempool tx (bc nd));;
  emit (Printed (LnAddedTx (Transaction_ID tx)));;
  nd ← get;
  first ← knownNode 0;
  if decide (nodeAddress nd = first) then
    forEach (knownNodes nd) (λ node,
      if decide (node ≠ nodeAddress nd ∧ node ≠ peerAddress)
      then sendInv node "tx" [Transaction_ID tx]
      else mret ())
  else
    if decide (2 ≤ MempoolLen (bc nd) ∧ MempoolLen (bc nd) `mod` 2 = 0)%nat
    then setBc (MineBlock (bc nd))
    else mret ().

Definition sendAddr (address : string) : M unit :=
  nd ← get;
  let payload := gobEncode (mkAddr (knownNodes nd)) in
  sendMessage address cmdAddr payload.

Definition handleAddr (request : list byte) : M unit :=
  data ← lift (sliceFrom commandLength request);
  payload ← gobDecode data;
  let peerAddressList := Addr_AddrList payload in
  forEach peerAddressList (λ address,
    known ← nodeIsKnown address;
    if negb known then appendKnownNode address else mret ()).

Definition sendGetAddr (address : string) : M unit :=
  nd ← get;
  let payload := gobEncode (mkGetAddr (nodeAddress nd)) in
  sendMessage address cmdGetAddr payload.

Definition handleGetAddr (request : list byte) : M unit :=
  data ← lift (sliceFrom commandLength request);
  payload ← gobDecode data;
  let peerAddress := GetAddr_AddrFrom payload in
  sendAddr peerAddress.

Definition sendPing (address : string) (nonce : Z) : M unit :=
  let payload := gobEncode (mkPing nonce) in
  sendMessage address cmdPing payload.

Definition sendPong (address : string) (nonce : Z) : M unit :=
  let payload := gobEncode (mkPong nonce) in
  sendMessage address cmdPong payload.

Definition handlePing (request : list byte) : M unit :=
  data ← lift (sliceFrom commandLength request);
  payload ← gobDecode data;
  let peerAddress := Ping_AddrFrom payload in
  let peerNonce := Ping_Nonce payload in
  sendPong peerAddress peerNonce.

Definition handlePong (request : list byte) : M unit :=
  data ← lift (sliceFrom commandLength request);
  payload ← gobDecode data;
  let peerAddress := Pong_AddrFrom payload in
  let peerNonce := Pong_Nonce payload in
  emit (Printed (LnReceivedPong peerNonce peerAddress)).

(** The handlers of [getblocks], [inv], [getdata] and [block], which
    [handleConnection] calls and the source does not contain. *)
Class Handlers := {
  handleGetBlocks : list byte → M unit;
  handleInv : list byte → M unit;
  handleGetData : list byte → M unit;
  handleBlock : list byte → M unit }.
Context `{Handlers}.

(** [conn.Read(request)]: fill the front of the buffer with what is
    there, at most the length of the buffer. *)
Definition connRead (conn : Conn) (request : list byte) : M (list byte) :=
  match readable conn with
  | [] => logPanic ReadError
  | _ => let n := Nat.min (length (readable conn)) (length request) in
         mret (take n (readable conn) ++ drop n request)
  end.

Definition handleConnection (conn : Conn) : M unit :=
  defer (emit ClosedInbound)
    (let request := replicate commandLength x00 in
     request ← connRead conn request;
     let command := bytesToCommand request in
     if decide (command = cmdVersion) then handleVersion request
     else if decide (command = cmdGetBlocks) then handleGetBlocks request
     else if decide (command = cmdInv) then handleInv request
     else if decide (command = cmdGetData) then handleGetData request
     else if decide (command = cmdBlock) then handleBlock request
     else if decide (command = cmdTx) then handleTx request
     else if decide (command = cmdAddr) then handleAddr request
     else if decide (command = cmdGetAddr) then handleGetAddr request
     else if decide (command = cmdPing) then handlePing request
     else if decide (command = cmdPong) then handlePong request
     else emit (Printed LnUnknownCommand)).

(** The accept loop over the connection attempts that arrive, [None] for
    a failing [Accept].  [go handleConnection(conn, bc)] is run to its end
    before the next [Accept] (one of the schedules Go allows); no
    goroutine recovers, so a panic in any of them ends the process, which
    is the panic of the whole computation here.  Returning stands for the
    loop waiting in [Accept]. *)
Fixpoint acceptLoop (arrivals : list (option Conn)) : M unit :=
  match arrivals with
  | [] => mret ()
  | None :: _ => logPanic AcceptError
  | Some conn :: rest => handleConnection conn;; acceptLoop rest
  end.

Definition StartNode (address : string) (listenOk : bool)
    (arrivals : list (option Conn)) : M unit :=
  setNodeAddress address;;
  if listenOk then
    setBc NewBlockchain;;
    first ← knownNode 0;
    (if decide (address ≠ first) then sendVersion first else mret ());;
    acceptLoop arrivals
  else logPanic ListenError.

(** The globals as the package initialises them. *)
Definition initialNode (net : string → peer) : Node :=
  mkNode "" ["localhost:3000"] NewBlockchain net [].

End Node.

(** ** The wire format of the spec *)

(** The 12-byte zero-padded command field of the framing. *)
Definition padded (name : string) : list byte :=
  String.list_byte_of_string name
  ++ replicate (commandLength - length (String.list_byte_of_string name)) x00.

(** The bytes a name is made of are nonzero ASCII. *)
Definition plain (name : string) : Prop :=
  Forall (λ b, 0 < Z_of_byte b < 0x80) (String.list_byte_of_string name).

(** What [sendData] leaves in the output, by the state of the peer. *)
Definition sendEvents (p : peer) (address : string) (data : list byte) : list event :=
  match p with
  | Unreachable => [Dialed address; Printed (LnNotAvailable address)]
  | Broken => [Dialed address; Printed (LnPanic WriteError); Closed address]
  | Reachable => [Dialed address; Sent address data; Closed address]
  end.

(** The state [nd] with [evs] added to its output. *)
Definition printed `{Chain} (nd : Node) (evs : list event) : Node :=
  mkNode (nodeAddress nd) (knownNodes nd) (bc nd) (network nd) (output nd ++ evs).

(** ** A sample instance

    Concrete stand-ins for what the source takes from elsewhere, on which
    the node can be run: a self-delimiting byte codec in the place of gob,
    and a ledger after the spec.  The general results below do not depend
    on them. *)
Module Sample.

(** Numbers in unary ([n] times 0x01, then 0x00), signed numbers behind a
    sign byte, byte strings behind their length, lists behind their
    count. *)
Definition encNat (n : nat) : list byte := replicate n x01 ++ [x00].

Fixpoint decNat (l : list byte) : option (nat * list byte) :=
  match l with
  | [] => None
  | b :: r =>
    if decide (b = x00) then Some (O, r)
    else if decide (b = x01) then
      match decNat r with
      | Some (n, r') => Some (S n, r')
      | None => None
      end
    else None
  end.

Definition encZ (z : Z) : list byte :=
  (if z <? 0 then x01 else x00) :: encNat (Z.abs_nat z).

Definition decZ (l : list byte) : option (Z * list byte) :=
  match l with
  | [] => None
  | s :: r =>
    match decNat r with
    | Some (n, r') =>
      if decide (s = x00) then Some (Z.of_nat n, r')
      else if decide (s = x01) then Some (- Z.of_nat n, r')
      else None
    | None => None
    end
  end.

Definition encBytes (bs : list byte) : list byte := encNat (length bs) ++ bs.

Definition decBytes (l : list byte) : option (list byte * list byte) :=
  match decNat l with
  | Some (n, r) =>
    if decide (n ≤ length r)%nat then Some (take n r, drop n r) else None
  | None => None
  end.

Definition encString (s : string) : list byte :=
  encBytes (String.list_byte_of_string s).

Definition decString (l : list byte) : option (string * list byte) :=
  match decBytes l with
  | Some (bs, r) => Some (String.string_of_list_byte bs, r)
  | None => None
  end.

Definition encList {A} (enc : A → list byte) (xs : list A) : list byte :=
  encNat (length xs) ++ concat (enc <$> xs).

Fixpoint decItems {A} (dec : list byte → option (A * list byte))
    (n : nat) (l : list byte) : option (list A * list byte) :=
  match n with
  | O => Some ([], l)
  | S k =>
    match dec l with
    | Some (x, r) =>
      match decItems dec k r with
      | Some (xs, r') => Some (x :: xs, r')
      | None => None
      end
    | None => None
    end
  end.

Definition decList {A} (dec : list byte → option (A * list byte))
    (l : list byte) : option (list A * list byte) :=
  match decNat l with
  | Some (n, r) => decItems dec n r
  | None => None
  end.

Definition encVersion (v : Version) : list byte :=
  encZ (Version_Version v) ++ encZ (Version_BestHeight v)
  ++ encString (Version_AddrFrom v).

Definition decVersion (l : list byte) : option Version :=
  '(v, l) ← decZ l; '(h, l) ← decZ l; '(a, _) ← decString l;
  Some (mkVersion v h a).

#[export] Instance gobVersion : Gob Version :=
  {| gobEnc := encVersion; gobDec := decVersion; gobDec_EOF := eq_refl |}.

Definition encInv (v : Inv) : list byte :=
  encString (Inv_AddrFrom v) ++ encString (Inv_Type v)
  ++ encList encBytes (Inv_Items v).

Definition decInv (l : list byte) : option Inv :=
  '(a, l) ← decString l; '(t, l) ← decString l; '(items, _) ← decList decBytes l;
  Some (mkInv a t items).

#[export] Instance gobInv : Gob Inv :=
  {| gobEnc := encInv; gobDec := decInv; gobDec_EOF := eq_refl |}.

Definition encTx (v : Tx) : list byte :=
  encString (Tx_AddrFrom v) ++ encBytes (Tx_Transaction v).

Definition decTx (l : list byte) : option Tx :=
  '(a, l) ← decString l; '(t, _) ← decBytes l; Some (mkTx a t).

#[export] Instance gobTx : Gob Tx :=
  {| gobEnc := encTx; gobDec := decTx; gobDec_EOF := eq_refl |}.

Definition encAddr (v : Addr) : list byte :=
  encList encString (Addr_AddrList v).

Definition decAddr (l : list byte) : option Addr :=
  '(xs, _) ← decList decString l; Some (mkAddr xs).

#[export] Instance gobAddr : Gob Addr :=
  {| gobEnc := encAddr; gobDec := decAddr; gobDec_EOF := eq_refl |}.

Definition encPing (v : Ping) : list byte :=
  encZ (Ping_Nonce v).

Definition decPing (l : list byte) : option Ping :=
  '(n, _) ← decZ l; Some (mkPing n).

#[export] Instance gobPing : Gob Ping :=
  {| gobEnc := encPing; gobDec := decPing; gobDec_EOF := eq_refl |}.

Definition encPong (v : Pong) : list byte :=
  encZ (Pong_Nonce v).

Definition decPong (l : list byte) : option Pong :=
  '(n, _) ← decZ l; Some (mkPong n).

#[export] Instance gobPong : Gob Pong :=
  {| gobEnc := encPong; gobDec := decPong; gobDec_EOF := eq_refl |}.

Definition encGetAddr (v : GetAddr) : list byte :=
  encString (GetAddr_AddrFrom v).

Definition decGetAddr (l : list byte) : option GetAddr :=
  '(a, _) ← decString l; Some (mkGetAddr a).

#[export] Instance gobGetAddr : Gob GetAddr :=
  {| gobEnc := encGetAddr; gobDec := decGetAddr; gobDec_EOF := eq_refl |}.

Definition encGetBlocks (v : GetBlocks) : list byte :=
  encString (GetBlocks_AddrFrom v).

Definition decGetBlocks (l : list byte) : option GetBlocks :=
  '(a, _) ← decString l; Some (mkGetBlocks a).

#[export] Instance gobGetBlocks : Gob GetBlocks :=
  {| gobEnc := encGetBlocks; gobDec := decGetBlocks; gobDec_EOF := eq_refl |}.

(** Modelled from the spec: the ledger.  A chain of blocks beginning with
    genesis and a mempool; [AddTransaction] inserts a transaction whose id
    is not yet present, [MineBlock] folds the mempool into a new block and
    empties it, the height is the number of blocks.  A transaction is its
    serialized content, which is also its identity. *)
Record Ledger := mkLedger {
  Blocks : list (list (list byte));
  Mempool : list (list byte) }.

#[export] Instance chain : Chain := {|
  Blockchain := Ledger;
  Transaction := list byte;
  NewBlockchain := mkLedger [[]] [];
  GetBestHeight b := Z.of_nat (length (Blocks b));
  MempoolLen b := length (Mempool b);
  AddTxToMempool tx b :=
    if decide (tx ∈ Mempool b) then b
    else mkLedger (Blocks b) (Mempool b ++ [tx]);
  MineBlock b := mkLedger (Blocks b ++ [Mempool b]) [];
  DeserializeTransaction data := data;
  Transaction_ID tx := tx |}.

(** A field that is not on the wire has its zero value. *)
#[export] Instance undeclared : Undeclared := {|
  Ping_AddrFrom _ := "";
  Pong_AddrFrom _ := "" |}.

(** The four handlers that are not in the source: left without effect. *)
#[export] Instance handlers : Handlers := {|
  handleGetBlocks _ := mret ();
  handleInv _ := mret ();
  handleGetData _ := mret ();
  handleBlock _ := mret () |}.

Definition allReachable : string → peer := λ _, Reachable.
Definition noneReachable : string → peer := λ _, Unreachable.
Definition allBroken : string → peer := λ _, Broken.

End Sample.

(** ** The known nodes as a growing list *)

(** [nodes'] is [nodes] with addresses appended that were not in it, each
    once. *)
Definition grows (nodes nodes' : list string) : Prop :=
  ∃ added, nodes' = nodes ++ added
           ∧ NoDup added
           ∧ ∀ address, address ∈ added → address ∉ nodes.

(** A computation that leaves [nodeAddress] alone and only lets
    [knownNodes] grow, whether it returns or panics. *)
Definition keeps `{Chain} {A} (m : M A) : Prop :=
  ∀ nd r nd', m nd = (r, nd') →
    nodeAddress nd' = nodeAddress nd ∧ grows (knownNodes nd) (knownNodes nd').

#[local] Instance plain_dec (name : string) : Decision (plain name).
Proof. unfold plain. apply _. Defined.

(** ** Sample nodes *)
Module Nodes.
Import Sample.

(** The bootstrap node, knowing two peers. *)
Definition bootstrap (net : string → peer) : Node :=
  mkNode "localhost:3000"
         ["localhost:3000"; "localhost:3001"; "localhost:3002"]
         NewBlockchain net [].

(** Another node, knowing the bootstrap node only, with one transaction
    waiting in its mempool. *)
Definition miner (net : string → peer) : Node :=
  mkNode "localhost:3001" ["localhost:3000"] (mkLedger [[]] [[x01]]) net [].

(** A well-formed message: the command field and the encoded payload. *)
Definition message {T} `{Gob T} (cmd : string) (payload : T) : list byte :=
  padded cmd ++ gobEnc payload.

End Nodes.

(** ** Further parts of the source *)

(** [tx.Serialize()], which [sendTx] calls and the source does not
    contain. *)
Class Serializer `{Chain} := {
  Transaction_Serialize : Transaction → list byte }.

Definition sendTx `{Chain} `{Gob Tx} `{!Serializer}
    (address : string) (tx : Transaction) : M unit :=
  nd ← get;
  let payload := gobEncode (mkTx (nodeAddress nd) (Transaction_Serialize tx)) in
  sendMessage address cmdTx payload.

(** The serializer of the sample ledger: a transaction is its content. *)
#[export] Instance sampleSerializer : @Serializer Sample.chain :=
  @Build_Serializer Sample.chain (λ tx : list byte, tx).

(** ** What a computation leaves alone *)

(** [m] takes every state to a state related to it by [R], whether it
    returns or panics. *)
Definition preserves `{Chain} {A} (R : Node → Node → Prop) (m : M A) : Prop :=
  ∀ nd r nd', m nd = (r, nd') → R nd nd'.

(** The node's address and its network are the same, and the output has
    only been added to. *)
Definition sameSetting `{Chain} (nd nd' : Node) : Prop :=
  nodeAddress nd' = nodeAddress nd
  ∧ network nd' = network nd
  ∧ output nd `prefix_of` output nd'.

(** Only the output differs. *)
Definition onlyOutput `{Chain} (nd nd' : Node) : Prop :=
  sameSetting nd nd' ∧ knownNodes nd' = knownNodes nd ∧ bc nd' = bc nd.

(** * Results *)

(** ** The wire codec *)

Lemma byte_of_Z_of_byte (b : byte) : byte_of_Z (Z_of_byte b) = b.
Proof. by destruct b. Qed.

Lemma string_bytes_inj (s t : string) :
  String.list_byte_of_string s = String.list_byte_of_string t → s = t.
Proof.
  intros E. rewrite <- (String.string_of_list_byte_of_string s),
    <- (String.string_of_list_byte_of_string t). by rewrite E.
Qed.

(** The loop of [bytesToCommand] keeps the nonzero bytes, in order. *)
Lemma bytesToCommand_loop (data acc : list byte) :
  foldl (λ command b, if decide (b ≠ x00) then command ++ [b] else command)
        acc data
  = acc ++ filter (λ b, b ≠ x00) data.
Proof.
  revert acc. induction data as [|b data IH]; intros acc; simpl.
  - by rewrite app_nil_r.
  - rewrite IH, filter_cons. case_decide; [|done].
    by rewrite <- app_assoc.
Qed.

Lemma bytesToCommand_filter (data : list byte) :
  String.list_byte_of_string (bytesToCommand data) = filter (λ b, b ≠ x00) data.
Proof.
  unfold bytesToCommand. rewrite bytesToCommand_loop.
  by rewrite String.list_byte_of_string_of_list_byte.
Qed.

Lemma decoderune_ascii (b : byte) (s : list byte) :
  Z_of_byte b < 0x80 → decoderune (b :: s) = (Z_of_byte b, 1%nat).
Proof.
  intros Hb. unfold decoderune.
  by destruct (Z.ltb_spec (Z_of_byte b) 0x80); [|lia].
Qed.

Lemma rangeFrom_ascii_cons (i : nat) (b : byte) (s : list byte) :
  Z_of_byte b < 0x80 →
  rangeFrom i 0 (b :: s) = (i, Z_of_byte b) :: rangeFrom (S i) 0 s.
Proof.
  intros Hb. cbn [rangeFrom]. by rewrite decoderune_ascii.
Qed.

Lemma encodeStep_panic (p : panic) (l : list (nat * Z)) :
  foldl encodeStep (Panic p) l = Panic p.
Proof. induction l as [|[i c] l IH]; [done|]. exact IH. Qed.

(** Encoding bytes below 0x80 into an array that holds [pre] followed by
    [n] zeros, from index [length pre] on: the bytes are copied when they
    fit, and the first index past the array panics. *)
Lemma encode_ascii (s pre : list byte) (n : nat) :
  Forall (λ b, Z_of_byte b < 0x80) s →
  foldl encodeStep (Ok (pre ++ replicate n x00)) (rangeFrom (length pre) 0 s)
  = if decide (length s ≤ n)%nat
    then Ok (pre ++ s ++ replicate (n - length s) x00)
    else Panic (IndexOutOfRange (length pre + n) (length pre + n)).
Proof.
  intros Hs. revert pre n.
  induction Hs as [|b s Hb Hs IH]; intros pre n.
  - cbn [rangeFrom foldl length]. rewrite decide_True by lia.
    by rewrite Nat.sub_0_r.
  - rewrite rangeFrom_ascii_cons by done. cbn [foldl encodeStep result_bind].
    rewrite byte_of_Z_of_byte. unfold arraySet.
    rewrite length_app, length_replicate.
    destruct n as [|n].
    + rewrite decide_False by lia. rewrite encodeStep_panic.
      rewrite decide_False by (simpl; lia). by rewrite Nat.add_0_r.
    + rewrite decide_True by lia.
      replace (<[length pre:=b]> (pre ++ replicate (S n) x00))
        with ((pre ++ [b]) ++ replicate n x00).
      2:{ rewrite insert_app_r_alt by lia. rewrite Nat.sub_diag.
          by rewrite <- app_assoc. }
      replace (S (length pre)) with (length (pre ++ [b]))
        by (rewrite length_app; simpl; lia).
      rewrite IH. rewrite length_app. simpl.
      destruct (decide (length s ≤ n)%nat).
      * rewrite decide_True by lia. by rewrite <- app_assoc.
      * rewrite decide_False by lia. f_equal. f_equal; lia.
Qed.

Lemma commandToBytes_ascii (name : string) :
  Forall (λ b, Z_of_byte b < 0x80) (String.list_byte_of_string name) →
  commandToBytes name
  = if decide (length (String.list_byte_of_string name) ≤ commandLength)%nat
    then Ok (padded name)
    else Panic (IndexOutOfRange commandLength commandLength).
Proof.
  intros Hs. exact (encode_ascii _ [] commandLength Hs).
Qed.

Lemma bytesToCommand_padded (name : string) :
  Forall (λ b, b ≠ x00) (String.list_byte_of_string name) →
  bytesToCommand (padded name) = name.
Proof.
  intros Hs. apply string_bytes_inj. rewrite bytesToCommand_filter.
  unfold padded. rewrite filter_app.
  assert (E : ∀ k, filter (λ b, b ≠ x00) (replicate k x00) = []).
  { induction k as [|k IHk]; [done|]. simpl. by rewrite filter_cons_False by tauto. }
  rewrite E, app_nil_r.
  induction Hs as [|b s Hb Hs IH]; [done|].
  by rewrite filter_cons_True, IH.
Qed.

Lemma rangeFrom_bounds (s : list byte) (i skip : nat) (p : nat * Z) :
  p ∈ rangeFrom i skip s → (i ≤ p.1 < i + length s)%nat.
Proof.
  revert i skip. induction s as [|b s IH]; intros i skip; cbn [rangeFrom].
  - by intros ?%elem_of_nil.
  - destruct skip as [|k].
    + destruct (decoderune (b :: s)) as [c w].
      intros [->|Hp%IH]%elem_of_cons; simpl in *; lia.
    + intros Hp%IH. simpl. lia.
Qed.

Lemma encode_in_range (l : list (nat * Z)) (d : list byte) :
  Forall (λ p, p.1 < length d)%nat l →
  ∃ d', foldl encodeStep (Ok d) l = Ok d' ∧ length d' = length d.
Proof.
  intros Hl. revert d Hl. induction l as [|[i c] l IH]; intros d Hl.
  - by exists d.
  - apply Forall_cons in Hl as [Hi Hl]. simpl in Hi.
    cbn [foldl encodeStep result_bind]. unfold arraySet.
    rewrite decide_True by done.
    destruct (IH (<[i:=byte_of_Z c]> d)) as (d' & E & Hd').
    { by rewrite length_insert. }
    exists d'. split; [done|]. by rewrite Hd', length_insert.
Qed.

Lemma commandToBytes_fits (name : string) :
  (length (String.list_byte_of_string name) ≤ commandLength)%nat →
  ∃ d, commandToBytes name = Ok d ∧ length d = commandLength.
Proof.
  intros Hlen. apply (encode_in_range _ (replicate commandLength x00)).
  apply Forall_forall. intros p Hp%rangeFrom_bounds.
  rewrite length_replicate. lia.
Qed.

Lemma length_bytes_of_string (s : string) :
  length (String.list_byte_of_string s) = String.length s.
Proof.
  unfold String.list_byte_of_string. rewrite length_map.
  induction s as [|a s IH]; [done|]. simpl. by rewrite IH.
Qed.

Lemma plain_ascii (name : string) :
  plain name → Forall (λ b, Z_of_byte b < 0x80) (String.list_byte_of_string name).
Proof. intros Hp. eapply Forall_impl; [exact Hp|]. intros b Hb. simpl in Hb. lia. Qed.

Lemma plain_nonzero (name : string) :
  plain name → Forall (λ b, b ≠ x00) (String.list_byte_of_string name).
Proof.
  intros Hp. eapply Forall_impl; [exact Hp|].
  intros b Hb ->. vm_compute in Hb. by destruct Hb.
Qed.

(** C5 (as amended): a command name shorter than the 12-byte width whose
    bytes are all nonzero ASCII is encoded into its zero-padded field, and
    decoding that field gives the name back. *)
Theorem command_roundtrip_plain (name : string) :
  (String.length name < commandLength)%nat →
  plain name →
  commandToBytes name = Ok (padded name)
  ∧ bytesToCommand (padded name) = name.
Proof.
  intros Hlen Hname. split.
  - rewrite commandToBytes_ascii by by apply plain_ascii.
    rewrite decide_True; [done|]. rewrite length_bytes_of_string. lia.
  - by apply bytesToCommand_padded, plain_nonzero.
Qed.

Lemma command_roundtrip_plain_witness :
  commandToBytes cmdGetBlocks = Ok (padded cmdGetBlocks)
  ∧ bytesToCommand (padded cmdGetBlocks) = cmdGetBlocks.
Proof.
  apply command_roundtrip_plain.
  - vm_compute. lia.
  - apply (bool_decide_unpack _). vm_compute. exact I.
Defined.

(** C5 does not hold as stated: two names shorter than the width that do
    not come back.  The two bytes 0xC3 0xA9 are one accented letter, which
    is encoded as the single byte 0xE9; the zero byte inside the second
    name is taken for padding. *)
Lemma command_roundtrip_fails :
  let accented := String.string_of_list_byte [xc3; xa9] in
  let holed := String.string_of_list_byte [x61; x00; x62] in
  ((String.length accented < commandLength)%nat
   ∧ ∃ d, commandToBytes accented = Ok d ∧ bytesToCommand d ≠ accented)
  ∧ ((String.length holed < commandLength)%nat
   ∧ ∃ d, commandToBytes holed = Ok d ∧ bytesToCommand d ≠ holed).
Proof.
  split; (split; [vm_compute; lia|]); eexists; (split; [reflexivity|]);
    vm_compute; discriminate.
Qed.

(** C8 (as amended): for a name of ASCII characters, exactly 12 bytes are
    encoded as they are, with no padding and nothing cut; more than 12
    bytes are neither rejected nor truncated: the assignment to [data[12]]
    panics with an index out of range. *)
Theorem commandToBytes_at_or_over_width (name : string) :
  Forall (λ b, Z_of_byte b < 0x80) (String.list_byte_of_string name) →
  (String.length name = commandLength →
   commandToBytes name = Ok (String.list_byte_of_string name))
  ∧ ((commandLength < String.length name)%nat →
     commandToBytes name = Panic (IndexOutOfRange commandLength commandLength)).
Proof.
  intros Hname. rewrite commandToBytes_ascii by done.
  rewrite length_bytes_of_string. split; intros Hlen.
  - rewrite decide_True by lia. unfold padded.
    rewrite length_bytes_of_string, Hlen, Nat.sub_diag. by rewrite app_nil_r.
  - by rewrite decide_False by lia.
Qed.

Lemma commandToBytes_at_or_over_width_witness :
  commandToBytes "abcdefghijkl" = Ok (String.list_byte_of_string "abcdefghijkl")
  ∧ commandToBytes "abcdefghijklm"
    = Panic (IndexOutOfRange commandLength commandLength).
Proof.
  split.
  - apply (commandToBytes_at_or_over_width "abcdefghijkl").
    + apply (bool_decide_unpack _). vm_compute. exact I.
    + reflexivity.
  - apply (commandToBytes_at_or_over_width "abcdefghijklm").
    + apply (bool_decide_unpack _). vm_compute. exact I.
    + vm_compute. lia.
Defined.

(** C8 does not hold as stated: on a name of 13 bytes the encoding is not
    total, it indexes the 12-byte array at 12 and panics. *)
Lemma commandToBytes_overlong_panics :
  (commandLength ≤ String.length "abcdefghijklm")%nat
  ∧ commandToBytes "abcdefghijklm" = Panic (IndexOutOfRange 12 12)
  ∧ ¬ ∃ d, commandToBytes "abcdefghijklm" = Ok d.
Proof.
  split; [vm_compute; lia|]. split; [reflexivity|].
  intros [d Hd]. vm_compute in Hd. discriminate.
Qed.

(** C10: [bytesToCommand] returns the nonzero bytes of its input, in
    order, wherever the zero bytes are; so two inputs with the same nonzero
    bytes decode to the same name, and a name with a zero byte in it is not
    what decoding its encoding returns. *)
Theorem bytesToCommand_drops_every_zero :
  (∀ data : list byte,
     String.list_byte_of_string (bytesToCommand data)
     = filter (λ b, b ≠ x00) data)
  ∧ (∀ data1 data2 : list byte,
       filter (λ b, b ≠ x00) data1 = filter (λ b, b ≠ x00) data2 →
       bytesToCommand data1 = bytesToCommand data2)
  ∧ (∀ (name : string) (data : list byte),
       x00 ∈ String.list_byte_of_string name →
       commandToBytes name = Ok data →
       bytesToCommand data ≠ name).
Proof.
  split; [exact bytesToCommand_filter|]. split.
  - intros data1 data2 E. apply string_bytes_inj.
    by rewrite !bytesToCommand_filter.
  - intros name data Hzero _ E.
    rewrite <- E, bytesToCommand_filter in Hzero.
    apply list_elem_of_filter in Hzero as [Hne _]. by apply Hne.
Qed.

Lemma bytesToCommand_drops_every_zero_witness :
  bytesToCommand [x70; x00; x69; x00; x00; x6e; x67]
  = bytesToCommand [x00; x70; x69; x6e; x67; x00]
  ∧ bytesToCommand [x61; x00; x62; x00; x00; x00; x00; x00; x00; x00; x00; x00]
    ≠ String.string_of_list_byte [x61; x00; x62].
Proof.
  split.
  - apply (proj1 (proj2 bytesToCommand_drops_every_zero)). reflexivity.
  - apply (proj2 (proj2 bytesToCommand_drops_every_zero)).
    + apply (bool_decide_unpack _). vm_compute. exact I.
    + reflexivity.
Defined.

(** ** The node *)

Section NodeResults.
Context `{Chain}.

Lemma bind_ok {A B} (m : M A) (k : A → M B) (nd nd' : Node) (a : A) :
  m nd = (Ok a, nd') → (m ≫= k) nd = k a nd'.
Proof. unfold mbind, M_bind. by intros ->. Qed.

Lemma bind_panic {A B} (m : M A) (k : A → M B) (nd nd' : Node) (p : panic) :
  m nd = (Panic p, nd') → (m ≫= k) nd = (Panic p, nd').
Proof. unfold mbind, M_bind. by intros ->. Qed.

Lemma printed_nil (nd : Node) : printed nd [] = nd.
Proof. destruct nd. unfold printed. simpl. by rewrite app_nil_r. Qed.

Lemma printed_app (nd : Node) (evs1 evs2 : list event) :
  printed (printed nd evs1) evs2 = printed nd (evs1 ++ evs2).
Proof. unfold printed. simpl. by rewrite app_assoc. Qed.

Lemma emit_run (e : event) (nd : Node) : emit e nd = (Ok (), printed nd [e]).
Proof. reflexivity. Qed.

Lemma sendData_run (address : string) (data : list byte) (nd : Node) :
  sendData address data nd
  = (match network nd address with Broken => Panic WriteError | _ => Ok () end,
     printed nd (sendEvents (network nd address) address data)).
Proof.
  unfold sendData, mbind, M_bind, get, defer, logPanic, emit, raise,
    printed, sendEvents; simpl.
  destruct (network nd address); simpl; by rewrite <- ?app_assoc.
Qed.

(** C7 (as amended): [sendData] dials once.  When the dial fails it
    prints that the address is not available and returns, the message
    dropped; when the write fails it logs the error and panics, the
    deferred [conn.Close()] runs, and the panic is that of the caller:
    whatever follows the send in the handler is not run. *)
Theorem sendData_failures (address : string) (data : list byte) (nd : Node) :
  (network nd address = Unreachable →
   sendData address data nd
   = (Ok (), printed nd [Dialed address; Printed (LnNotAvailable address)]))
  ∧ (network nd address = Broken →
     sendData address data nd
     = (Panic WriteError,
        printed nd [Dialed address; Printed (LnPanic WriteError);
                  Closed address])
     ∧ ∀ (B : Type) (rest : unit → M B),
         (sendData address data ≫= rest) nd
         = (Panic WriteError,
            printed nd [Dialed address; Printed (LnPanic WriteError);
                        Closed address])).
Proof.
  split; intros E.
  - by rewrite sendData_run, E.
  - assert (sendData address data nd
            = (Panic WriteError,
               printed nd [Dialed address; Printed (LnPanic WriteError);
                           Closed address]))
      as Hsend by by rewrite sendData_run, E.
    split; [done|]. intros B rest. by apply bind_panic.
Qed.

Context `{Gob Version, Gob Inv, Gob Tx, Gob Addr, Gob Ping, Gob Pong,
          Gob GetAddr, Gob GetBlocks}.
Context `{Undeclared}.
Context `{!Handlers}.

Lemma sliceFrom_app (head data : list byte) :
  length head = commandLength → sliceFrom commandLength (head ++ data) = Ok data.
Proof.
  intros Hlen. unfold sliceFrom.
  rewrite decide_True by (rewrite length_app; lia).
  by rewrite <- Hlen, drop_app_length.
Qed.

Lemma gobDecode_ok {T} `{Gob T} (data : list byte) (v : T) (nd : Node) :
  gobDec data = Some v → gobDecode data nd = (Ok v, nd).
Proof. unfold gobDecode. by intros ->. Qed.

Lemma gobDecode_fail {T} `{Gob T} (data : list byte) (nd : Node) :
  gobDec (T:=T) data = None →
  gobDecode (T:=T) data nd
  = (Panic GobDecodeError, printed nd [Printed (LnPanic GobDecodeError)]).
Proof. unfold gobDecode. by intros ->. Qed.

Lemma nodeIsKnownIn_elem (nodes : list string) (address : string) :
  nodeIsKnownIn nodes address = bool_decide (address ∈ nodes).
Proof.
  induction nodes as [|node nodes IH]; cbn [nodeIsKnownIn].
  - symmetry. apply bool_decide_eq_false_2. by intros ?%elem_of_nil.
  - destruct (decide (node = address)) as [->|Hne].
    + symmetry. apply bool_decide_eq_true_2. apply list_elem_of_here.
    + rewrite IH. apply bool_decide_ext. rewrite elem_of_cons.
      split; [by right|]. by intros [->|?].
Qed.

Lemma sendVersion_run (address : string) (nd : Node) :
  sendVersion address nd
  = sendData address
      (padded cmdVersion
       ++ gobEnc (mkVersion nodeVersion (GetBestHeight (bc nd)) (nodeAddress nd)))
      nd.
Proof. reflexivity. Qed.

Lemma sendGetBlocks_run (address : string) (nd : Node) :
  sendGetBlocks address nd
  = sendData address
      (padded cmdGetBlocks ++ gobEnc (mkGetBlocks (nodeAddress nd))) nd.
Proof. reflexivity. Qed.


Lemma sendAddr_run (address : string) (nd : Node) :
  sendAddr address nd
  = sendData address (padded cmdAddr ++ gobEnc (mkAddr (knownNodes nd))) nd.
Proof. reflexivity. Qed.

Lemma sendPong_run (address : string) (nonce : Z) (nd : Node) :
  sendPong address nonce nd
  = sendData address (padded cmdPong ++ gobEnc (mkPong nonce)) nd.
Proof. reflexivity. Qed.

Lemma sendPing_run (address : string) (nonce : Z) (nd : Node) :
  sendPing address nonce nd
  = sendData address (padded cmdPing ++ gobEnc (mkPing nonce)) nd.
Proof. reflexivity. Qed.

(** The start of every handler: slice the payload off and decode it. *)
Lemma handler_decode {T B} `{Gob T} (head data : list byte) (v : T)
    (k : T → M B) (nd : Node) :
  length head = commandLength →
  gobDec data = Some v →
  (lift (sliceFrom commandLength (head ++ data)) ≫= λ data, gobDecode data ≫= k) nd
  = k v nd.
Proof.
  intros Hlen Hdec. rewrite sliceFrom_app by done.
  unfold lift, mbind, M_bind. cbv beta iota.
  by rewrite (gobDecode_ok _ _ _ Hdec).
Qed.

(** What a send to a peer that is not broken amounts to. *)
Lemma sendData_sound (address : string) (data : list byte) (nd : Node) :
  network nd address ≠ Broken →
  sendData address data nd
  = (Ok (), printed nd (sendEvents (network nd address) address data)).
Proof. intros Hnet. rewrite sendData_run. by destruct (network nd address). Qed.




Lemma grows_refl (nodes : list string) : grows nodes nodes.
Proof.
  exists []. rewrite app_nil_r. split; [done|]. split; [constructor|].
  by intros a ?%elem_of_nil.
Qed.

Lemma grows_trans (l1 l2 l3 : list string) :
  grows l1 l2 → grows l2 l3 → grows l1 l3.
Proof.
  intros (a1 & -> & Hd1 & Hn1) (a2 & -> & Hd2 & Hn2).
  exists (a1 ++ a2). rewrite app_assoc. split; [done|]. split.
  - apply NoDup_app. split; [done|]. split; [|done].
    intros x Hx1 Hx2. apply (Hn2 x Hx2), elem_of_app. by right.
  - intros x [Hx|Hx]%elem_of_app; [by apply Hn1|].
    intros Hin. apply (Hn2 x Hx), elem_of_app. by left.
Qed.

Lemma grows_snoc (nodes : list string) (address : string) :
  address ∉ nodes → grows nodes (nodes ++ [address]).
Proof.
  intros Hnew. exists [address]. split; [done|]. split.
  - apply NoDup_singleton.
  - by intros a ->%list_elem_of_singleton.
Qed.

Lemma grows_first (nodes nodes' : list string) (first : string) :
  grows nodes nodes' → nodes !! 0%nat = Some first → nodes' !! 0%nat = Some first.
Proof. intros (added & -> & _) Hfirst. by apply lookup_app_l_Some. Qed.

Lemma grows_NoDup (nodes nodes' : list string) :
  grows nodes nodes' → NoDup nodes → NoDup nodes'.
Proof.
  intros (added & -> & Hd & Hn) Hnodes. apply NoDup_app.
  split; [done|]. split; [|done]. intros x Hx Hx'. by apply (Hn x).
Qed.

Lemma keeps_ret {A} (a : A) : keeps (mret a).
Proof. intros nd r nd' [= <- <-]. split; [done|apply grows_refl]. Qed.

Lemma keeps_bind {A B} (m : M A) (k : A → M B) :
  keeps m → (∀ a, keeps (k a)) → keeps (m ≫= k).
Proof.
  intros Hm Hk nd r nd'. unfold mbind, M_bind.
  destruct (m nd) as [[a|p] nd1] eqn:E; destruct (Hm _ _ _ E) as [Ha Hg].
  - intros [Ha' Hg']%Hk. split; [congruence|by eapply grows_trans].
  - by intros [= <- <-].
Qed.

Lemma keeps_printed {A} (m : M A) :
  (∀ nd, ∃ r evs, m nd = (r, printed nd evs)) → keeps m.
Proof.
  intros Hm nd r nd' E. destruct (Hm nd) as (r' & evs & E').
  rewrite E' in E. injection E as <- <-. split; [done|apply grows_refl].
Qed.

Lemma keeps_get : keeps get.
Proof. intros nd r nd' [= <- <-]. split; [done|apply grows_refl]. Qed.

Lemma keeps_lift {A} (r : result A) : keeps (lift r).
Proof. intros nd r' nd' [= <- <-]. split; [done|apply grows_refl]. Qed.

Lemma keeps_emit (e : event) : keeps (emit e).
Proof. apply keeps_printed. intros nd. by exists (Ok ()), [e]. Qed.

Lemma keeps_gobDecode {T} `{Gob T} (data : list byte) : keeps (gobDecode (T:=T) data).
Proof.
  apply keeps_printed. intros nd. unfold gobDecode.
  destruct (gobDec data) as [v|].
  - exists (Ok v), []. by rewrite printed_nil.
  - by exists (Panic GobDecodeError), [Printed (LnPanic GobDecodeError)].
Qed.

Lemma keeps_sendData (address : string) (data : list byte) :
  keeps (sendData address data).
Proof. apply keeps_printed. intros nd. rewrite sendData_run. eauto. Qed.

Lemma keeps_sendMessage (address cmd : string) (payload : list byte) :
  keeps (sendMessage address cmd payload).
Proof.
  apply keeps_bind; [apply keeps_lift|]. intros head. apply keeps_sendData.
Qed.

(** [if !nodeIsKnown(address) { knownNodes = append(knownNodes, address) }] *)
Lemma keeps_learn (address : string) :
  keeps (known ← nodeIsKnown address;
         if negb known then appendKnownNode address else mret ()).
Proof.
  intros nd r nd'.
  unfold nodeIsKnown, appendKnownNode, setKnownNodes, get, mbind, M_bind,
    mret, M_ret.
  rewrite nodeIsKnownIn_elem. case_bool_decide as Hknown; simpl.
  - intros [= <- <-]. split; [done|apply grows_refl].
  - intros [= <- <-]. split; [done|]. by apply grows_snoc.
Qed.

Lemma keeps_forEach {A} (xs : list A) (body : A → M unit) :
  (∀ x, keeps (body x)) → keeps (forEach xs body).
Proof.
  intros Hbody. induction xs as [|x xs IH]; cbn [forEach].
  - apply keeps_ret.
  - apply keeps_bind; [apply Hbody|]. by intros _.
Qed.

Create HintDb keeps.
Hint Resolve keeps_ret keeps_get keeps_lift keeps_emit keeps_gobDecode
  keeps_sendData keeps_sendMessage keeps_learn : keeps.

Ltac keeps_steps :=
  repeat first
    [ solve [auto with keeps]
    | apply keeps_bind; [|intros ?]
    | match goal with |- keeps (if ?c then _ else _) => destruct c end ].

Lemma keeps_handleVersion (request : list byte) : keeps (handleVersion request).
Proof. unfold handleVersion, sendVersion, sendGetBlocks. keeps_steps. Qed.

Lemma keeps_handleAddr (request : list byte) : keeps (handleAddr request).
Proof.
  unfold handleAddr. keeps_steps. apply keeps_forEach. intros address.
  apply keeps_learn.
Qed.

(** C6 (as amended): across the [version] and [addr] handlers, however
    they end, [nodeAddress] does not change and [knownNodes] only has
    addresses appended that were not in it: the bootstrap address stays
    the first member and no address comes to be listed twice.  The node's
    own address is not set apart from the others. *)
Theorem knownNodes_invariants (request : list byte) (nd nd' : Node)
    (r : result unit) :
  handleVersion request nd = (r, nd') ∨ handleAddr request nd = (r, nd') →
  nodeAddress nd' = nodeAddress nd
  ∧ (∃ added, knownNodes nd' = knownNodes nd ++ added
              ∧ ∀ address, address ∈ added → address ∉ knownNodes nd)
  ∧ (∀ first, knownNodes nd !! 0%nat = Some first →
              knownNodes nd' !! 0%nat = Some first)
  ∧ (NoDup (knownNodes nd) → NoDup (knownNodes nd')).
Proof.
  intros Hrun.
  assert (nodeAddress nd' = nodeAddress nd
          ∧ grows (knownNodes nd) (knownNodes nd')) as [Hself Hgrows].
  { destruct Hrun as [E|E].
    - by apply (keeps_handleVersion request nd r nd').
    - by apply (keeps_handleAddr request nd r nd'). }
  split; [done|]. split; [|split].
  - destruct Hgrows as (added & ? & _ & ?). by exists added.
  - intros first. by apply grows_first.
  - by apply grows_NoDup.
Qed.

(** A handler whose payload does not decode logs the error and panics,
    having done nothing else. *)
Lemma handler_decode_fail {T B} `{Gob T} (request data : list byte)
    (k : T → M B) (nd : Node) :
  sliceFrom commandLength request = Ok data →
  gobDec (T:=T) data = None →
  (lift (sliceFrom commandLength request) ≫= λ data, gobDecode data ≫= k) nd
  = (Panic GobDecodeError, printed nd [Printed (LnPanic GobDecodeError)]).
Proof.
  intros -> Hdec. unfold lift, mbind, M_bind. cbv beta iota.
  by rewrite (gobDecode_fail _ _ Hdec).
Qed.

Lemma defer_close_run {A} (body : M A) (nd nd' : Node) (r : result A) :
  body nd = (r, nd') →
  defer (emit ClosedInbound) body nd = (r, printed nd' [ClosedInbound]).
Proof. unfold defer. by intros ->. Qed.

Lemma handleConnection_closes (conn : Conn) (nd nd' : Node) (r : result unit) :
  handleConnection conn nd = (r, nd') →
  ∃ evs, output nd' = evs ++ [ClosedInbound].
Proof.
  unfold handleConnection, defer.
  match goal with |- context [match ?body nd with _ => _ end] =>
    destruct (body nd) as [r1 nd1] end.
  cbn. intros [= <- <-]. by exists (output nd1).
Qed.

(** C3 (as amended): a payload that fails to decode makes its handler
    log the error and panic, with nothing else done; the connection is
    closed on the way out of [handleConnection], whose panic ends the
    accept loop and with it the process: the connections that follow are
    not served.  A failure to listen ends the process as well. *)
Theorem decode_failure_ends_process :
  (∀ (request data : list byte) (nd : Node),
     sliceFrom commandLength request = Ok data →
     let failed := (Panic GobDecodeError,
                    printed nd [Printed (LnPanic GobDecodeError)]) in
     (gobDec (T:=Version) data = None → handleVersion request nd = failed)
     ∧ (gobDec (T:=Tx) data = None → handleTx request nd = failed)
     ∧ (gobDec (T:=Addr) data = None → handleAddr request nd = failed)
     ∧ (gobDec (T:=GetAddr) data = None → handleGetAddr request nd = failed)
     ∧ (gobDec (T:=Ping) data = None → handlePing request nd = failed)
     ∧ (gobDec (T:=Pong) data = None → handlePong request nd = failed))
  ∧ (∀ (conn : Conn) (nd nd' : Node) (r : result unit),
       handleConnection conn nd = (r, nd') →
       ∃ evs, output nd' = evs ++ [ClosedInbound])
  ∧ (∀ (conn : Conn) (later : list (option Conn)) (nd nd' : Node) (p : panic),
       handleConnection conn nd = (Panic p, nd') →
       acceptLoop (Some conn :: later) nd = (Panic p, nd'))
  ∧ (∀ (address : string) (arrivals : list (option Conn)) (nd : Node),
       ∃ nd', StartNode address false arrivals nd = (Panic ListenError, nd')).
Proof.
  split; [|split; [|split]].
  - intros request data nd Hslice failed.
    repeat split; intros Hdec; by apply (handler_decode_fail _ data).
  - exact handleConnection_closes.
  - intros conn later nd nd' p E. cbn [acceptLoop]. by apply bind_panic.
  - intros address arrivals nd. by eexists.
Qed.

(** The buffer of [handleConnection] after the read. *)
Lemma connRead_run (conn : Conn) (nd : Node) :
  readable conn ≠ [] →
  connRead conn (replicate commandLength x00) nd
  = (Ok (take commandLength (readable conn)
         ++ replicate (commandLength - length (readable conn)) x00), nd).
Proof.
  intros Hne. unfold connRead. destruct (readable conn) as [|b bs] eqn:E; [done|].
  rewrite length_replicate, drop_replicate. unfold mret, M_ret. do 2 f_equal.
  destruct (decide (length (b :: bs) ≤ commandLength)%nat).
  - rewrite Nat.min_l by done. by rewrite !take_ge by lia.
  - rewrite Nat.min_r by lia. f_equal. f_equal. lia.
Qed.

(** C2: [handleConnection] reads the command field and no more.  The
    request that reaches a handler is the first 12 bytes that were
    readable, zero-filled to 12; its payload [request[12:]] is empty
    whatever followed on the socket, two connections that agree on their
    first 12 bytes are handled alike, and each of the six handlers of the
    source then fails to decode and panics. *)
Theorem handleConnection_reads_command_only (conn : Conn) (nd : Node) :
  readable conn ≠ [] →
  let request := take commandLength (readable conn)
                 ++ replicate (commandLength - length (readable conn)) x00 in
  length request = commandLength
  ∧ sliceFrom commandLength request = Ok []
  ∧ (∀ conn' : Conn,
       take commandLength (readable conn') = take commandLength (readable conn) →
       handleConnection conn' nd = handleConnection conn nd)
  ∧ (bytesToCommand request
       ∈ [cmdVersion; cmdTx; cmdAddr; cmdGetAddr; cmdPing; cmdPong] →
     handleConnection conn nd
     = (Panic GobDecodeError,
        printed nd [Printed (LnPanic GobDecodeError); ClosedInbound])).
Proof.
  intros Hne request.
  assert (Hlen : length request = commandLength).
  { subst request. rewrite length_app, length_take, length_replicate. lia. }
  assert (Hslice : sliceFrom commandLength request = Ok []).
  { unfold sliceFrom. rewrite decide_True by lia.
    by rewrite drop_ge by lia. }
  split; [done|]. split; [done|]. split.
  - intros conn' Htake.
    assert (Hne' : readable conn' ≠ []).
    { intros E. rewrite E in Htake. destruct (readable conn); [done|].
      discriminate. }
    assert (Hlen' : (commandLength `min` length (readable conn')
                     = commandLength `min` length (readable conn))%nat).
    { by rewrite <- !length_take, Htake. }
    unfold handleConnection, defer.
    rewrite (bind_ok _ _ _ _ _ (connRead_run conn' nd Hne')).
    rewrite (bind_ok _ _ _ _ _ (connRead_run conn nd Hne)).
    rewrite Htake.
    replace (commandLength - length (readable conn'))%nat
      with (commandLength - length (readable conn))%nat by lia.
    done.
  - intros Hcmd.
    unfold handleConnection.
    change (printed nd [Printed (LnPanic GobDecodeError); ClosedInbound])
      with (printed nd ([Printed (LnPanic GobDecodeError)] ++ [ClosedInbound])).
    rewrite <- printed_app. apply defer_close_run.
    rewrite (bind_ok _ _ _ _ _ (connRead_run _ _ Hne)). fold request.
    rewrite !elem_of_cons in Hcmd.
    destruct Hcmd as [->|[->|[->|[->|[->|[->|Hcmd]]]]]];
      [| | | | | | by apply elem_of_nil in Hcmd];
      cbn [decide]; rewrite ?decide_True by done;
      by apply (handler_decode_fail _ []); [|apply gobDec_EOF].
Qed.

(** C9: the reply to a ping does not reach its sender.  The message
    [sendPing] writes is the command and the nonce, the same bytes from
    whichever node sends it; [handlePing] answers it with a pong of the
    decoded nonce, sent to the address that [payload.AddrFrom] yields
    from the nonce alone.  Of two different senders of the same ping, at
    least one is not the address the pong goes to. *)
Theorem ping_reply_misses_sender (nonce : Z) (target : string)
    (sender1 sender2 nd : Node) (payload : Ping) :
  nodeAddress sender1 ≠ nodeAddress sender2 →
  network sender1 target = Reachable →
  network sender2 target = Reachable →
  gobDec (gobEnc (mkPing nonce)) = Some payload →
  let message := padded cmdPing ++ gobEnc (mkPing nonce) in
  sendPing target nonce sender1
  = (Ok (), printed sender1 [Dialed target; Sent target message; Closed target])
  ∧ sendPing target nonce sender2
    = (Ok (), printed sender2 [Dialed target; Sent target message; Closed target])
  ∧ ∃ address,
      handlePing message nd
      = sendData address
          (padded cmdPong ++ gobEnc (mkPong (Ping_Nonce payload))) nd
      ∧ (address ≠ nodeAddress sender1 ∨ address ≠ nodeAddress sender2).
Proof.
  intros Hsenders Hnet1 Hnet2 Hdec message.
  split; [|split].
  - by rewrite sendPing_run, sendData_run, Hnet1.
  - by rewrite sendPing_run, sendData_run, Hnet2.
  - exists (Ping_AddrFrom payload). split.
    + unfold handlePing, message.
      rewrite (handler_decode (padded cmdPing) _ _ _ _ eq_refl Hdec).
      by rewrite sendPong_run.
    + destruct (decide (Ping_AddrFrom payload = nodeAddress sender1)) as [E|E];
        [right|by left].
      by rewrite E.
Qed.
End NodeResults.

(** ** The results on the sample nodes *)

Import Sample Nodes.




(** C6 does not hold as stated: a node that is not among its known nodes
    is sent the address list of the bootstrap node, which names it, and
    appends its own address; so does a [version] message that carries the
    node's address. *)
Lemma own_address_inserted :
  let nd := miner allReachable in
(nodeAddress nd ∉ knownNodes nd)
  ∧ handleAddr (message cmdAddr (mkAddr ["localhost:3000"; "localhost:3001"])) nd
    = (Ok (),
       mkNode "localhost:3001" ["localhost:3000"; "localhost:3001"]
              (bc nd) allReachable [])
  ∧ handleVersion (message cmdVersion (mkVersion 1 1 "localhost:3001")) nd
    = (Ok (),
       mkNode "localhost:3001" ["localhost:3000"; "localhost:3001"]
              (bc nd) allReachable
              [Printed (LnReceivedVersion 1 1 "localhost:3001")])
  ∧ "localhost:3001" ∈ ["localhost:3000"; "localhost:3001"].
Proof.
  split; [|split; [|split]].
  - apply (bool_decide_unpack _). vm_compute. exact I.
  - reflexivity.
  - reflexivity.
  - apply (bool_decide_unpack _). vm_compute. exact I.
Qed.

Lemma knownNodes_invariants_witness :
  let nd := miner allReachable in
  let nd' := mkNode "localhost:3001" ["localhost:3000"; "localhost:3001"; "x"]
                    (bc nd) allReachable [] in
  nodeAddress nd' = nodeAddress nd
  ∧ (∃ added, knownNodes nd' = knownNodes nd ++ added
              ∧ ∀ address, address ∈ added → address ∉ knownNodes nd)
  ∧ (∀ first, knownNodes nd !! 0%nat = Some first →
              knownNodes nd' !! 0%nat = Some first)
  ∧ (NoDup (knownNodes nd) → NoDup (knownNodes nd')).
Proof.
  apply (knownNodes_invariants
           (message cmdAddr (mkAddr ["localhost:3000"; "localhost:3001"; "x"; "x"]))
           (miner allReachable) _ (Ok ())).
  right. reflexivity.
Defined.

(** C7 does not hold as stated: when the write to the peer fails,
    [sendData] panics, and so does the handler that called it. *)
Lemma write_failure_panics_handler :
  let nd := bootstrap allBroken in
  let failed :=
    (Panic WriteError,
     printed nd [Dialed "localhost:3001"; Printed (LnPanic WriteError);
                 Closed "localhost:3001"]) in
  sendData "localhost:3001" [x01] nd = failed
  ∧ handleGetAddr (message cmdGetAddr (mkGetAddr "localhost:3001")) nd = failed
  ∧ ¬ ∃ nd', handleGetAddr (message cmdGetAddr (mkGetAddr "localhost:3001")) nd
             = (Ok (), nd').
Proof.
  split; [reflexivity|]. split; [reflexivity|].
  intros [nd' E]. vm_compute in E. discriminate.
Qed.

Lemma sendData_failures_witness :
  sendData "localhost:3001" [x01] (bootstrap noneReachable)
  = (Ok (),
     printed (bootstrap noneReachable)
       [Dialed "localhost:3001"; Printed (LnNotAvailable "localhost:3001")])
  ∧ sendData "localhost:3001" [x01] (bootstrap allBroken)
    = (Panic WriteError,
       printed (bootstrap allBroken)
         [Dialed "localhost:3001"; Printed (LnPanic WriteError);
          Closed "localhost:3001"]).
Proof.
  split.
  - apply (proj1 (sendData_failures "localhost:3001" [x01] (bootstrap noneReachable))).
    reflexivity.
  - apply (proj2 (sendData_failures "localhost:3001" [x01] (bootstrap allBroken))).
    reflexivity.
Defined.

(** C3 does not hold as stated: a payload that does not decode panics in
    its handler, and a node that is sent one stops there.  The connection
    that follows, which the node would have served, is not served. *)
Lemma decode_failure_stops_node :
  let nd := initialNode allReachable in
  let started evs :=
    mkNode "localhost:3000" ["localhost:3000"] NewBlockchain allReachable evs in
  let bad := padded cmdPong ++ [xff] in
  let good := padded "hello" in
  gobDec (T:=Pong) [xff] = None
  ∧ handlePong bad nd
    = (Panic GobDecodeError, printed nd [Printed (LnPanic GobDecodeError)])
  ∧ StartNode "localhost:3000" true [Some (mkConn good)] nd
    = (Ok (), started [Printed LnUnknownCommand; ClosedInbound])
  ∧ StartNode "localhost:3000" true [Some (mkConn bad); Some (mkConn good)] nd
    = (Panic GobDecodeError,
       started [Printed (LnPanic GobDecodeError); ClosedInbound]).
Proof. by repeat split. Qed.

Lemma decode_failure_ends_process_witness :
  let nd := initialNode allReachable in
  let bad := padded cmdPong ++ [xff] in
  handlePong bad nd
  = (Panic GobDecodeError, printed nd [Printed (LnPanic GobDecodeError)])
  ∧ acceptLoop [Some (mkConn bad); Some (mkConn (padded "hello"))] nd
    = (Panic GobDecodeError,
       printed nd [Printed (LnPanic GobDecodeError); ClosedInbound]).
Proof.
  split.
  - apply (proj1 decode_failure_ends_process (padded cmdPong ++ [xff]) [xff]);
      reflexivity.
  - apply (proj1 (proj2 (proj2 decode_failure_ends_process))). reflexivity.
Defined.

Lemma handleConnection_reads_command_only_witness :
  let nd := initialNode allReachable in
  let conn := mkConn (message cmdPong (mkPong 7)) in
  handleConnection conn nd
  = (Panic GobDecodeError,
     printed nd [Printed (LnPanic GobDecodeError); ClosedInbound])
  ∧ handleConnection (mkConn (padded cmdPong)) nd = handleConnection conn nd.
Proof.
  assert (Hne : readable (mkConn (message cmdPong (mkPong 7))) ≠ [])
    by discriminate.
  destruct (handleConnection_reads_command_only _ (initialNode allReachable) Hne)
    as (_ & _ & Hsame & Hpanic).
  split.
  - apply Hpanic. apply (bool_decide_unpack _). vm_compute. exact I.
  - apply Hsame. reflexivity.
Defined.

(** C2 on a well-formed message: the pong that [handlePong] takes when it
    is given the whole message makes [handleConnection] panic, because the
    payload is not read from the connection. *)
Lemma pong_payload_not_read :
  let nd := initialNode allReachable in
  handlePong (message cmdPong (mkPong 7)) nd
  = (Ok (), printed nd [Printed (LnReceivedPong 7 "")])
  ∧ handleConnection (mkConn (message cmdPong (mkPong 7))) nd
    = (Panic GobDecodeError,
       printed nd [Printed (LnPanic GobDecodeError); ClosedInbound]).
Proof. by split. Qed.

Lemma ping_reply_misses_sender_witness :
  let message := padded cmdPing ++ gobEnc (mkPing 7) in
  sendPing "localhost:3000" 7 (miner allReachable)
  = (Ok (),
     printed (miner allReachable)
       [Dialed "localhost:3000"; Sent "localhost:3000" message;
        Closed "localhost:3000"])
  ∧ sendPing "localhost:3000" 7 (bootstrap allReachable)
    = (Ok (),
       printed (bootstrap allReachable)
         [Dialed "localhost:3000"; Sent "localhost:3000" message;
          Closed "localhost:3000"])
  ∧ ∃ address,
      handlePing message (bootstrap allReachable)
      = sendData address (padded cmdPong ++ gobEnc (mkPong 7))
                 (bootstrap allReachable)
      ∧ (address ≠ "localhost:3001" ∨ address ≠ "localhost:3000").
Proof.
  refine (ping_reply_misses_sender 7 "localhost:3000" (miner allReachable)
            (bootstrap allReachable) (bootstrap allReachable) (mkPing 7)
            _ eq_refl eq_refl eq_refl).
  discriminate.
Defined.

(** C9 on the sample nodes: the ping of node localhost:3001, handled by
    the bootstrap node with the zero value for the missing field, is
    answered to the empty address. *)
Lemma ping_answered_to_nobody :
  let nd := bootstrap allReachable in
  handlePing (message cmdPing (mkPing 7)) nd
  = (Ok (),
     printed nd [Dialed ""; Sent "" (message cmdPong (mkPong 7)); Closed ""]).
Proof. reflexivity. Qed.

(** * Further results *)

(** ** The wire codec *)

Lemma encode_length (l : list (nat * Z)) (d d' : list byte) :
  foldl encodeStep (Ok d) l = Ok d' → length d' = length d.
Proof.
  revert d. induction l as [|[i c] l IH]; intros d.
  - by intros [= ->].
  - cbn [foldl encodeStep result_bind]. unfold arraySet. case_decide.
    + intros E%IH. by rewrite E, length_insert.
    + by rewrite encodeStep_panic.
Qed.

(** The encoded command field, when there is one, is 12 bytes long. *)
Theorem commandToBytes_length (name : string) (data : list byte) :
  commandToBytes name = Ok data → length data = commandLength.
Proof.
  intros E%encode_length. by rewrite E, length_replicate.
Qed.

Lemma commandToBytes_length_witness :
  length [x74; x78; x00; x00; x00; x00; x00; x00; x00; x00; x00; x00]
  = commandLength.
Proof. apply (commandToBytes_length cmdTx). reflexivity. Defined.

Lemma encode_out_of_range (l : list (nat * Z)) (d : list byte) :
  Exists (λ ic, length d ≤ ic.1)%nat l →
  ∃ j, foldl encodeStep (Ok d) l = Panic (IndexOutOfRange j (length d))
       ∧ (length d ≤ j)%nat ∧ j ∈ l.*1.
Proof.
  revert d. induction l as [|[i c] l IH]; intros d Hex.
  - by apply Exists_nil in Hex.
  - cbn [foldl encodeStep result_bind]. unfold arraySet.
    destruct (decide (i < length d)%nat) as [Hi|Hi].
    + apply Exists_cons in Hex as [Hex|Hex]; [simpl in Hex; lia|].
      destruct (IH (<[i:=byte_of_Z c]> d)) as (j & E & Hj & Hin).
      { by rewrite length_insert. }
      rewrite length_insert in E, Hj. exists j. split; [done|]. split; [done|].
      rewrite fmap_cons. by apply list_elem_of_further.
    + exists i. rewrite encodeStep_panic. split; [done|]. split; [lia|].
      rewrite fmap_cons. apply list_elem_of_here.
Qed.

(** [commandToBytes] panics exactly when a character of the name starts
    at byte index 12 or beyond, with that index out of range; every name of
    at most 12 bytes is encoded, whatever its bytes. *)
Theorem commandToBytes_panics_iff (name : string) :
  ((∃ p, commandToBytes name = Panic p)
   ↔ ∃ i c, (i, c) ∈ rangeString name ∧ (commandLength ≤ i)%nat)
  ∧ (∀ p, commandToBytes name = Panic p →
          ∃ i, p = IndexOutOfRange i commandLength
               ∧ (commandLength ≤ i)%nat ∧ i ∈ (rangeString name).*1)
  ∧ ((String.length name ≤ commandLength)%nat →
     ∃ data, commandToBytes name = Ok data).
Proof.
  assert (Hcases :
    Forall (λ ic, ic.1 < commandLength)%nat (rangeString name)
    ∨ Exists (λ ic, commandLength ≤ ic.1)%nat (rangeString name)).
  { destruct (decide (Forall (λ ic, ic.1 < commandLength)%nat (rangeString name)))
      as [Hall|Hex]; [by left|right].
    apply not_Forall_Exists in Hex; [|apply _].
    eapply Exists_impl; [exact Hex|]. simpl. intros ic Hic. lia. }
  assert (Hpanic : Exists (λ ic, commandLength ≤ ic.1)%nat (rangeString name) →
    ∃ j, commandToBytes name = Panic (IndexOutOfRange j commandLength)
         ∧ (commandLength ≤ j)%nat ∧ j ∈ (rangeString name).*1).
  { intros Hex.
    apply (encode_out_of_range _ (replicate commandLength x00)).
    by rewrite length_replicate. }
  assert (Hok : Forall (λ ic, ic.1 < commandLength)%nat (rangeString name) →
    ∃ d, commandToBytes name = Ok d).
  { intros Hall.
    destruct (encode_in_range (rangeString name) (replicate commandLength x00))
      as (d & E & _); [by rewrite length_replicate|]. by exists d. }
  split; [split|split].
  - intros [p Ep]. destruct Hcases as [Hall|Hex].
    + destruct (Hok Hall) as [d Ed]. congruence.
    + apply Exists_exists in Hex as ([i c] & Hin & Hi). by exists i, c.
  - intros (i & c & Hin & Hi).
    destruct Hpanic as (j & E & _); [|by eexists].
    apply Exists_exists. by exists (i, c).
  - intros p Ep. destruct Hcases as [Hall|Hex].
    + destruct (Hok Hall) as [d Ed]. congruence.
    + destruct (Hpanic Hex) as (j & E & Hj & Hin). exists j.
      split; [congruence|done].
  - intros Hlen. rewrite <- length_bytes_of_string in Hlen.
    destruct (commandToBytes_fits name Hlen) as (d & E & _). by exists d.
Qed.

(** Thirteen bytes that are encoded: the last character takes two bytes
    and starts at index 11. *)
Lemma commandToBytes_panics_iff_witness :
  let name := String.string_of_list_byte
    [x61; x62; x63; x64; x65; x66; x67; x68; x69; x6a; x6b; xc3; xa9] in
  String.length name = 13%nat
  ∧ commandToBytes name
    = Ok [x61; x62; x63; x64; x65; x66; x67; x68; x69; x6a; x6b; xe9]
  ∧ ((∃ p, commandToBytes "abcdefghijklm" = Panic p)
     ↔ ∃ i c, (i, c) ∈ rangeString "abcdefghijklm" ∧ (commandLength ≤ i)%nat)
  ∧ ∃ data, commandToBytes cmdGetBlocks = Ok data.
Proof.
  split; [reflexivity|]. split; [reflexivity|]. split.
  - apply (proj1 (commandToBytes_panics_iff "abcdefghijklm")).
  - apply (proj2 (proj2 (commandToBytes_panics_iff cmdGetBlocks))).
    vm_compute. lia.
Defined.

Lemma string_of_list_byte_app (l1 l2 : list byte) :
  String.string_of_list_byte (l1 ++ l2)
  = (String.string_of_list_byte l1 +:+ String.string_of_list_byte l2)%string.
Proof.
  unfold String.string_of_list_byte.
  induction l1 as [|b l1 IH]; [done|]. simpl. by rewrite IH.
Qed.

(** Decoding goes through concatenation, the decoded name holds no zero
    byte and is no longer than the field it comes from; so zero bytes
    added to a field, before or after, do not change the name. *)
Theorem bytesToCommand_app (data1 data2 : list byte) :
  bytesToCommand (data1 ++ data2)
  = (bytesToCommand data1 +:+ bytesToCommand data2)%string
  ∧ (x00 ∉ String.list_byte_of_string (bytesToCommand data1))
  ∧ (String.length (bytesToCommand data1) ≤ length data1)%nat
  ∧ ∀ n m, bytesToCommand (replicate n x00 ++ data1 ++ replicate m x00)
           = bytesToCommand data1.
Proof.
  assert (Hzeros : ∀ k, filter (λ b, b ≠ x00) (replicate k x00) = []).
  { induction k as [|k IHk]; [done|]. simpl. by rewrite filter_cons_False by tauto. }
  split; [|split; [|split]].
  - unfold bytesToCommand. rewrite !bytesToCommand_loop, !app_nil_l.
    by rewrite filter_app, string_of_list_byte_app.
  - rewrite bytesToCommand_filter. intros [Hne _]%list_elem_of_filter.
    by apply Hne.
  - rewrite <- length_bytes_of_string, bytesToCommand_filter.
    apply length_filter.
  - intros n m. apply string_bytes_inj. rewrite !bytesToCommand_filter.
    by rewrite !filter_app, !Hzeros, app_nil_r.
Qed.

Lemma bytesToCommand_zero_fill (data : list byte) (n : nat) :
  bytesToCommand (data ++ replicate n x00) = bytesToCommand data.
Proof.
  apply string_bytes_inj. rewrite !bytesToCommand_filter, filter_app.
  assert (E : filter (λ b, b ≠ x00) (replicate n x00) = []).
  { induction n as [|n IHn]; [done|]. simpl. by rewrite filter_cons_False by tauto. }
  by rewrite E, app_nil_r.
Qed.

Lemma length_padded (name : string) :
  (String.length name ≤ commandLength)%nat → length (padded name) = commandLength.
Proof.
  intros Hlen. unfold padded.
  rewrite length_app, length_replicate, length_bytes_of_string. lia.
Qed.

(** Framing: the field that [commandToBytes] makes of a plain name of at
    most 12 bytes, followed by a payload, is taken apart again by the
    receiver: the name out of the first 12 bytes, the payload behind
    them. *)
Theorem frame_split (name : string) (payload : list byte) :
  (String.length name ≤ commandLength)%nat →
  plain name →
  ∃ head,
    commandToBytes name = Ok head
    ∧ length head = commandLength
    ∧ bytesToCommand (take commandLength (head ++ payload)) = name
    ∧ sliceFrom commandLength (head ++ payload) = Ok payload.
Proof.
  intros Hlen Hname. pose proof (length_padded name Hlen) as Hpad.
  exists (padded name). split; [|split; [done|split]].
  - rewrite commandToBytes_ascii by by apply plain_ascii.
    rewrite decide_True; [done|]. by rewrite length_bytes_of_string.
  - rewrite take_app_le by lia. rewrite take_ge by lia.
    by apply bytesToCommand_padded, plain_nonzero.
  - unfold sliceFrom. rewrite decide_True by (rewrite length_app; lia).
    by rewrite <- Hpad, drop_app_length.
Qed.

Lemma frame_split_witness :
  ∃ head,
    commandToBytes cmdGetData = Ok head
    ∧ length head = commandLength
    ∧ bytesToCommand (take commandLength (head ++ [x01; x02])) = cmdGetData
    ∧ sliceFrom commandLength (head ++ [x01; x02]) = Ok [x01; x02].
Proof.
  apply frame_split.
  - vm_compute. lia.
  - apply (bool_decide_unpack _). vm_compute. exact I.
Defined.

(** ** Connections and the accept loop *)

Section NodeMore.
Context `{Chain}.
Context `{Gob Version, Gob Inv, Gob Tx, Gob Addr, Gob Ping, Gob Pong,
          Gob GetAddr, Gob GetBlocks}.
Context `{Undeclared}.
Context `{!Handlers}.
Context `{!Serializer}.

(** A connection whose first 12 bytes do not spell one of the ten
    commands is answered by the message that the command is unknown, and
    then closed; nothing else changes and nothing panics. *)
Theorem handleConnection_unknown_command (conn : Conn) (nd : Node) :
  readable conn ≠ [] →
  bytesToCommand (take commandLength (readable conn)) ∉ commands →
  handleConnection conn nd
  = (Ok (), printed nd [Printed LnUnknownCommand; ClosedInbound]).
Proof.
  intros Hne Hcmd. unfold handleConnection.
  change (printed nd [Printed LnUnknownCommand; ClosedInbound])
    with (printed nd ([Printed LnUnknownCommand] ++ [ClosedInbound])).
  rewrite <- printed_app. apply defer_close_run.
  rewrite (bind_ok _ _ _ _ _ (connRead_run _ _ Hne)).
  set (request := take commandLength (readable conn) ++ _).
  assert (Hreq : bytesToCommand request
                 = bytesToCommand (take commandLength (readable conn))).
  { apply bytesToCommand_zero_fill. }
  cbv zeta. rewrite Hreq.
  unfold commands in Hcmd. rewrite !not_elem_of_cons in Hcmd.
  destruct Hcmd as (?&?&?&?&?&?&?&?&?&?&_).
  by rewrite !decide_False by done.
Qed.

(** A connection on which nothing can be read makes [handleConnection]
    log the error and panic; the connection is closed, and the accept
    loop, whatever connections follow, ends with that panic. *)
Theorem handleConnection_read_failure (conn : Conn) (later : list (option Conn))
    (nd : Node) :
  readable conn = [] →
  handleConnection conn nd
  = (Panic ReadError, printed nd [Printed (LnPanic ReadError); ClosedInbound])
  ∧ acceptLoop (Some conn :: later) nd
    = (Panic ReadError, printed nd [Printed (LnPanic ReadError); ClosedInbound]).
Proof.
  intros Hempty.
  assert (E : handleConnection conn nd
              = (Panic ReadError,
                 printed nd [Printed (LnPanic ReadError); ClosedInbound])).
  { unfold handleConnection.
    change (printed nd [Printed (LnPanic ReadError); ClosedInbound])
      with (printed nd ([Printed (LnPanic ReadError)] ++ [ClosedInbound])).
    rewrite <- printed_app. apply defer_close_run. apply bind_panic.
    unfold connRead. by rewrite Hempty. }
  split; [done|]. cbn [acceptLoop]. by apply bind_panic.
Qed.

(** The switch of [handleConnection]: the request that was read goes to
    the handler of the command its zero-stripped bytes spell, to that one
    only, and the connection is closed after it. *)
Theorem handleConnection_dispatch (conn : Conn) (nd : Node) :
  readable conn ≠ [] →
  let request := take commandLength (readable conn)
                 ++ replicate (commandLength - length (readable conn)) x00 in
  let finish handler :=
    handleConnection conn nd = defer (emit ClosedInbound) (handler request) nd in
  let command := bytesToCommand request in
  (command = cmdVersion → finish handleVersion)
  ∧ (command = cmdGetBlocks → finish handleGetBlocks)
  ∧ (command = cmdInv → finish handleInv)
  ∧ (command = cmdGetData → finish handleGetData)
  ∧ (command = cmdBlock → finish handleBlock)
  ∧ (command = cmdTx → finish handleTx)
  ∧ (command = cmdAddr → finish handleAddr)
  ∧ (command = cmdGetAddr → finish handleGetAddr)
  ∧ (command = cmdPing → finish handlePing)
  ∧ (command = cmdPong → finish handlePong).
Proof.
  intros Hne request finish command.
  assert (Hrun : ∀ body : list byte → M unit,
    defer (emit ClosedInbound)
      (connRead conn (replicate commandLength x00) ≫= body) nd
    = defer (emit ClosedInbound) (body request) nd).
  { intros body. unfold defer.
    by rewrite (bind_ok _ _ _ _ _ (connRead_run _ _ Hne)). }
  subst finish command. unfold handleConnection. rewrite Hrun. cbv zeta.
  repeat split; intros ->; reflexivity.
Qed.



(** How a node starts: the address is recorded first; when [Listen]
    fails the node logs that and panics, having dialled nobody; a node
    whose address is the first known node goes straight to the accept
    loop with a new ledger; any other node first sends its version to the
    first known node, and does not reach the accept loop when that write
    fails. *)
Theorem StartNode_startup (address first : string)
    (arrivals : list (option Conn)) (nd : Node) :
  knownNodes nd !! 0%nat = Some first →
  let named b := mkNode address (knownNodes nd) b (network nd) (output nd) in
  let hello := padded cmdVersion
               ++ gobEnc (mkVersion nodeVersion (GetBestHeight NewBlockchain) address) in
  StartNode address false arrivals nd
  = (Panic ListenError, printed (named (bc nd)) [Printed (LnPanic ListenError)])
  ∧ (address = first →
     StartNode address true arrivals nd = acceptLoop arrivals (named NewBlockchain))
  ∧ (address ≠ first →
     StartNode address true arrivals nd
     = match network nd first with
       | Broken =>
         (Panic WriteError,
          printed (named NewBlockchain) (sendEvents Broken first hello))
       | status =>
         acceptLoop arrivals
           (printed (named NewBlockchain) (sendEvents status first hello))
       end).
Proof.
  intros Hfirst named hello. split; [done|].
  assert (Hk : knownNode 0 (named NewBlockchain) = (Ok first, named NewBlockchain)).
  { unfold knownNode, get, mbind, M_bind. cbv beta iota.
    change (knownNodes (named NewBlockchain)) with (knownNodes nd).
    by rewrite Hfirst. }
  assert (Hstart :
    StartNode address true arrivals nd
    = ((if decide (address ≠ first) then sendVersion first else mret ())
       ≫= λ _, acceptLoop arrivals) (named NewBlockchain)).
  { unfold StartNode.
    unfold mbind at 1 2, M_bind at 1 2, setNodeAddress, setBc. cbv beta iota.
    fold (named NewBlockchain). by rewrite (bind_ok _ _ _ _ _ Hk). }
  rewrite Hstart. split; intros Haddr.
  - by rewrite decide_False by (by intros ?).
  - rewrite decide_True by done. unfold mbind, M_bind.
    rewrite sendVersion_run, sendData_run.
    change (network (named NewBlockchain)) with (network nd).
    by destruct (network nd first).
Qed.

(** ** Sending *)

(** Each [send*] of the source dials its address once and, when the peer
    takes the write, puts one message on the wire: the padded field of its
    own command followed by the encoded payload, which carries this node's
    address where the payload has a field for it.  Nothing but the output
    changes; the only panic is that of a failed write. *)
Theorem send_functions (address : string) (nonce : Z) (tx : Transaction)
    (nd : Node) :
  let sent cmd payload :=
    (match network nd address with Broken => Panic WriteError | _ => Ok () end,
     printed nd (sendEvents (network nd address) address (padded cmd ++ payload))) in
  sendVersion address nd
  = sent cmdVersion
      (gobEnc (mkVersion nodeVersion (GetBestHeight (bc nd)) (nodeAddress nd)))
  ∧ sendTx address tx nd
    = sent cmdTx (gobEnc (mkTx (nodeAddress nd) (Transaction_Serialize tx)))
  ∧ sendAddr address nd = sent cmdAddr (gobEnc (mkAddr (knownNodes nd)))
  ∧ sendGetAddr address nd = sent cmdGetAddr (gobEnc (mkGetAddr (nodeAddress nd)))
  ∧ sendPing address nonce nd = sent cmdPing (gobEnc (mkPing nonce))
  ∧ sendPong address nonce nd = sent cmdPong (gobEnc (mkPong nonce)).
Proof.
  intros sent. subst sent. cbv beta.
  repeat split; rewrite <- sendData_run; reflexivity.
Qed.

(** ** Known nodes *)

(** [nodeIsKnown] answers whether the address is among the known nodes,
    and changes nothing. *)
Theorem nodeIsKnown_member (address : string) (nd : Node) :
  ∃ known : bool,
    nodeIsKnown address nd = (Ok known, nd)
    ∧ (known = true ↔ address ∈ knownNodes nd).
Proof.
  exists (nodeIsKnownIn (knownNodes nd) address). split; [done|].
  rewrite nodeIsKnownIn_elem. apply bool_decide_eq_true.
Qed.

Lemma learn_loop (addresses : list string) (nd : Node) :
  ∃ nodes,
    forEach addresses (λ address,
      known ← nodeIsKnown address;
      if negb known then appendKnownNode address else mret ()) nd
    = (Ok (), mkNode (nodeAddress nd) nodes (bc nd) (network nd) (output nd))
    ∧ (∀ a, a ∈ nodes ↔ a ∈ knownNodes nd ∨ a ∈ addresses)
    ∧ ((∀ a, a ∈ addresses → a ∈ knownNodes nd) → nodes = knownNodes nd).
Proof.
  revert nd. induction addresses as [|x xs IH]; intros nd.
  - exists (knownNodes nd). split; [by destruct nd|]. split; [|done].
    intros a. rewrite elem_of_nil. tauto.
  - cbn [forEach].
    set (body := λ address : string, _).
    destruct (decide (x ∈ knownNodes nd)) as [Hx|Hx].
    + assert (E : body x nd = (Ok (), nd)).
      { subst body. cbv beta.
        unfold nodeIsKnown, get, mbind, M_bind, mret, M_ret.
        rewrite nodeIsKnownIn_elem. by rewrite bool_decide_eq_true_2. }
      rewrite (bind_ok _ _ _ _ _ E).
      destruct (IH nd) as (nodes & Erun & Hin & Hsame).
      exists nodes. split; [done|]. split.
      * intros a. rewrite Hin, elem_of_cons. split; [tauto|].
        intros [?|[->|?]]; auto.
      * intros Hall. apply Hsame. intros a Ha. apply Hall.
        by apply list_elem_of_further.
    + set (nd1 := mkNode (nodeAddress nd) (knownNodes nd ++ [x]) (bc nd)
                         (network nd) (output nd)).
      assert (E : body x nd = (Ok (), nd1)).
      { subst body. cbv beta.
        unfold nodeIsKnown, appendKnownNode, setKnownNodes, get,
          mbind, M_bind, mret, M_ret.
        rewrite nodeIsKnownIn_elem. by rewrite bool_decide_eq_false_2. }
      rewrite (bind_ok _ _ _ _ _ E).
      destruct (IH nd1) as (nodes & Erun & Hin & Hsame).
      exists nodes. split; [done|]. split.
      * intros a. rewrite Hin. subst nd1. cbn [knownNodes].
        rewrite elem_of_app, list_elem_of_singleton, elem_of_cons. tauto.
      * intros Hall. exfalso. apply Hx, Hall, list_elem_of_here.
Qed.

(** The [addr] handler, on a request whose payload decodes, returns
    without output; afterwards the known nodes are those that were known
    or are listed in the message, and handling the same message again
    changes nothing. *)
Theorem handleAddr_learns (head data : list byte) (payload : Addr) (nd : Node) :
  length head = commandLength →
  gobDec data = Some payload →
  ∃ nodes,
    let nd' := mkNode (nodeAddress nd) nodes (bc nd) (network nd) (output nd) in
    handleAddr (head ++ data) nd = (Ok (), nd')
    ∧ (∀ address, address ∈ nodes
                  ↔ address ∈ knownNodes nd ∨ address ∈ Addr_AddrList payload)
    ∧ handleAddr (head ++ data) nd' = (Ok (), nd').
Proof.
  intros Hlen Hdec.
  destruct (learn_loop (Addr_AddrList payload) nd) as (nodes & Erun & Hin & _).
  exists nodes. cbv zeta.
  set (nd' := mkNode (nodeAddress nd) nodes (bc nd) (network nd) (output nd)).
  split; [|split; [done|]].
  - unfold handleAddr. by rewrite (handler_decode _ _ _ _ _ Hlen Hdec).
  - unfold handleAddr. rewrite (handler_decode _ _ _ _ _ Hlen Hdec).
    destruct (learn_loop (Addr_AddrList payload) nd') as (nodes' & Erun' & _ & Hsame).
    rewrite Erun'. rewrite Hsame; [done|].
    intros a Ha. apply Hin. by right.
Qed.

(** The exchange of [getaddr] and [addr] between two nodes, when each
    message is decoded as it was encoded and both writes succeed: the node
    asking sends its address, the node asked answers to that address with
    the list of its known nodes, and once the first has handled the answer
    it knows every node it knew and every node the second knows. *)
Theorem getaddr_exchange (asking asked : Node) (target : string) :
  network asking target = Reachable →
  network asked (nodeAddress asking) = Reachable →
  gobDec (gobEnc (mkGetAddr (nodeAddress asking)))
  = Some (mkGetAddr (nodeAddress asking)) →
  gobDec (gobEnc (mkAddr (knownNodes asked))) = Some (mkAddr (knownNodes asked)) →
  let question := padded cmdGetAddr ++ gobEnc (mkGetAddr (nodeAddress asking)) in
  let answer := padded cmdAddr ++ gobEnc (mkAddr (knownNodes asked)) in
  sendGetAddr target asking
  = (Ok (), printed asking [Dialed target; Sent target question; Closed target])
  ∧ handleGetAddr question asked
    = (Ok (),
       printed asked [Dialed (nodeAddress asking);
                      Sent (nodeAddress asking) answer;
                      Closed (nodeAddress asking)])
  ∧ ∃ nodes,
      handleAddr answer asking
      = (Ok (), mkNode (nodeAddress asking) nodes (bc asking)
                       (network asking) (output asking))
      ∧ ∀ address, address ∈ nodes
                   ↔ address ∈ knownNodes asking ∨ address ∈ knownNodes asked.
Proof.
  intros Hnet1 Hnet2 Hdec1 Hdec2 question answer. split; [|split].
  - change (sendGetAddr target asking) with (sendData target question asking).
    by rewrite sendData_run, Hnet1.
  - unfold handleGetAddr, question.
    rewrite (handler_decode (padded cmdGetAddr) _ _ _ _ eq_refl Hdec1).
    cbn [GetAddr_AddrFrom]. by rewrite sendAddr_run, sendData_run, Hnet2.
  - destruct (learn_loop (knownNodes asked) asking) as (nodes & Erun & Hin & _).
    exists nodes. split; [|done].
    unfold handleAddr, answer.
    by rewrite (handler_decode (padded cmdAddr) _ _ _ _ eq_refl Hdec2).
Qed.

(** The version message of one node handled by another, when it is
    decoded as it was encoded and a write to the sender does not fail:
    both run the same version, so the receiver sends no version back and
    prints no upgrade notice; it asks for blocks exactly when the sender's
    chain is higher than its own, and the sender's address is a known node
    afterwards. *)
Theorem version_handshake (sender receiver : Node) :
  let hello := mkVersion nodeVersion (GetBestHeight (bc sender))
                         (nodeAddress sender) in
  gobDec (gobEnc hello) = Some hello →
  network receiver (nodeAddress sender) ≠ Broken →
  ∃ nodes,
    handleVersion (padded cmdVersion ++ gobEnc hello) receiver
    = (Ok (),
       mkNode (nodeAddress receiver) nodes (bc receiver) (network receiver)
         (output receiver
          ++ [Printed (LnReceivedVersion nodeVersion (GetBestHeight (bc sender))
                         (nodeAddress sender))]
          ++ if decide (GetBestHeight (bc sender) > GetBestHeight (bc receiver))
             then sendEvents (network receiver (nodeAddress sender))
                    (nodeAddress sender)
                    (padded cmdGetBlocks
                     ++ gobEnc (mkGetBlocks (nodeAddress receiver)))
             else []))
    ∧ nodeAddress sender ∈ nodes
    ∧ ∀ address, address ∈ knownNodes receiver → address ∈ nodes.
Proof.
  intros hello Hdec Hnet.
  exists (if decide (nodeAddress sender ∈ knownNodes receiver)
          then knownNodes receiver
          else knownNodes receiver ++ [nodeAddress sender]).
  split; [|split].
  - unfold handleVersion.
    rewrite (handler_decode (padded cmdVersion) _ _ _ _ eq_refl Hdec).
    cbn [Version_Version Version_BestHeight Version_AddrFrom hello].
    rewrite (bind_ok _ _ _ _ _ (emit_run _ _)).
    set (nd1 := printed receiver _).
    change (nodeVersion <? nodeVersion) with false.
    change (nodeVersion >? nodeVersion) with false. cbv iota.
    erewrite bind_ok; [|reflexivity].
    unfold get at 1. unfold mbind at 1, M_bind at 1.
    change (bc nd1) with (bc receiver).
    set (ask := if decide (GetBestHeight (bc sender) > GetBestHeight (bc receiver))
                then _ else []).
    assert (Hstep :
      (if GetBestHeight (bc sender) >? GetBestHeight (bc receiver)
       then sendGetBlocks (nodeAddress sender) else mret ()) nd1
      = (Ok (), printed nd1 ask)).
    { subst ask. rewrite Z.gtb_ltb.
      destruct (Z.ltb_spec (GetBestHeight (bc receiver)) (GetBestHeight (bc sender))).
      - rewrite decide_True by lia. rewrite sendGetBlocks_run.
        by rewrite sendData_sound.
      - rewrite decide_False by lia. by rewrite printed_nil. }
    rewrite (bind_ok _ _ _ _ _ Hstep).
    unfold nodeIsKnown, appendKnownNode, get, setKnownNodes, mbind, M_bind,
      mret, M_ret.
    rewrite nodeIsKnownIn_elem.
    change (knownNodes (printed nd1 ask)) with (knownNodes receiver).
    subst nd1. rewrite !printed_app.
    case_decide as Hknown.
    + by rewrite bool_decide_eq_true_2 by done.
    + by rewrite bool_decide_eq_false_2 by done.
  - case_decide; [done|]. rewrite elem_of_app, list_elem_of_singleton. by right.
  - intros address Hin. case_decide; [done|]. rewrite elem_of_app. by left.
Qed.

(** ** What the handlers leave alone *)

Section Preserve.
Variable R : Node → Node → Prop.
Hypothesis R_refl : ∀ nd, R nd nd.
Hypothesis R_trans : ∀ nd1 nd2 nd3, R nd1 nd2 → R nd2 nd3 → R nd1 nd3.
Hypothesis R_printed : ∀ nd evs, R nd (printed nd evs).

Lemma preserves_ret {A} (a : A) : preserves R (mret a).
Proof. intros nd r nd' [= <- <-]. apply R_refl. Qed.

Lemma preserves_bind {A B} (m : M A) (k : A → M B) :
  preserves R m → (∀ a, preserves R (k a)) → preserves R (m ≫= k).
Proof.
  intros Hm Hk nd r nd'. unfold mbind, M_bind.
  destruct (m nd) as [[a|p] nd1] eqn:E; pose proof (Hm _ _ _ E) as Hfst.
  - intros Hsnd%Hk. by eapply R_trans.
  - by intros [= <- <-].
Qed.

Lemma preserves_printed {A} (m : M A) :
  (∀ nd, ∃ r evs, m nd = (r, printed nd evs)) → preserves R m.
Proof.
  intros Hm nd r nd' E. destruct (Hm nd) as (r' & evs & E').
  rewrite E' in E. injection E as <- <-. apply R_printed.
Qed.

Lemma preserves_get : preserves R get.
Proof. intros nd r nd' [= <- <-]. apply R_refl. Qed.

Lemma preserves_lift {A} (r : result A) : preserves R (lift r).
Proof. intros nd r' nd' [= <- <-]. apply R_refl. Qed.

Lemma preserves_emit (e : event) : preserves R (emit e).
Proof. apply preserves_printed. intros nd. by exists (Ok ()), [e]. Qed.

Lemma preserves_gobDecode {T} `{Gob T} (data : list byte) :
  preserves R (gobDecode (T:=T) data).
Proof.
  apply preserves_printed. intros nd. unfold gobDecode.
  destruct (gobDec data) as [v|].
  - exists (Ok v), []. by rewrite printed_nil.
  - by exists (Panic GobDecodeError), [Printed (LnPanic GobDecodeError)].
Qed.

Lemma preserves_sendData (address : string) (data : list byte) :
  preserves R (sendData address data).
Proof. apply preserves_printed. intros nd. rewrite sendData_run. eauto. Qed.

Lemma preserves_sendMessage (address cmd : string) (payload : list byte) :
  preserves R (sendMessage address cmd payload).
Proof.
  apply preserves_bind; [apply preserves_lift|]. intros head.
  apply preserves_sendData.
Qed.

Lemma preserves_forEach {A} (xs : list A) (body : A → M unit) :
  (∀ x, preserves R (body x)) → preserves R (forEach xs body).
Proof.
  intros Hbody. induction xs as [|x xs IH]; cbn [forEach].
  - apply preserves_ret.
  - apply preserves_bind; [apply Hbody|]. by intros _.
Qed.

Lemma preserves_defer {A} (d : M unit) (body : M A) :
  preserves R d → preserves R body → preserves R (defer d body).
Proof.
  intros Hd Hbody nd r nd'. unfold defer.
  destruct (body nd) as [r1 nd1] eqn:E1. pose proof (Hbody _ _ _ E1) as Hfst.
  destruct (d nd1) as [[[]|p] nd2] eqn:E2; pose proof (Hd _ _ _ E2) as Hsnd;
    intros [= <- <-]; by eapply R_trans.
Qed.

Lemma preserves_connRead (conn : Conn) (request : list byte) :
  preserves R (connRead conn request).
Proof.
  apply preserves_printed. intros nd. unfold connRead.
  destruct (readable conn) as [|b bs].
  - by exists (Panic ReadError), [Printed (LnPanic ReadError)].
  - eexists (Ok _), []. by rewrite printed_nil.
Qed.

Ltac preserves_step :=
  lazymatch goal with
  | |- preserves _ (mbind _ _) => apply preserves_bind; [|intros ?]
  | |- preserves _ (if ?c then _ else _) => destruct c
  | |- preserves _ (mret _) => apply preserves_ret
  | |- preserves _ get => apply preserves_get
  | |- preserves _ (lift _) => apply preserves_lift
  | |- preserves _ (emit _) => apply preserves_emit
  | |- preserves _ (gobDecode _) => apply preserves_gobDecode
  | |- preserves _ (sendData _ _) => apply preserves_sendData
  | |- preserves _ (sendMessage _ _ _) => apply preserves_sendMessage
  | |- preserves _ (forEach _ _) => apply preserves_forEach; intros ?
  end.

Ltac preserves_steps := repeat preserves_step.

Lemma preserves_handleGetAddr (request : list byte) :
  preserves R (handleGetAddr request).
Proof. unfold handleGetAddr, sendAddr. preserves_steps. Qed.

Lemma preserves_handlePing (request : list byte) :
  preserves R (handlePing request).
Proof. unfold handlePing, sendPong. preserves_steps. Qed.

Lemma preserves_handlePong (request : list byte) :
  preserves R (handlePong request).
Proof. unfold handlePong. preserves_steps. Qed.

Lemma preserves_sendVersion (address : string) : preserves R (sendVersion address).
Proof. unfold sendVersion. preserves_steps. Qed.

(** When [R] allows any change of the known nodes. *)
Lemma preserves_version_addr (request : list byte) :
  (∀ nd nodes,
     R nd (mkNode (nodeAddress nd) nodes (bc nd) (network nd) (output nd))) →
  preserves R (handleVersion request) ∧ preserves R (handleAddr request).
Proof.
  intros R_known.
  assert (Hlearn : ∀ address,
    preserves R (known ← nodeIsKnown address;
                 if negb known then appendKnownNode address else mret ())).
  { intros address nd r nd'.
    unfold nodeIsKnown, appendKnownNode, setKnownNodes, get, mbind, M_bind,
      mret, M_ret.
    destruct (nodeIsKnownIn (knownNodes nd) address); simpl;
      intros [= <- <-]; [apply R_refl|apply R_known]. }
  split.
  - unfold handleVersion, sendVersion, sendGetBlocks.
    do 6 (apply preserves_bind; [preserves_steps|intros ?]).
    apply Hlearn.
  - unfold handleAddr.
    do 2 (apply preserves_bind; [preserves_steps|intros ?]).
    apply preserves_forEach, Hlearn.
Qed.

(** When [R] allows any change of the ledger. *)
Lemma preserves_handleTx (request : list byte) :
  (∀ nd b,
     R nd (mkNode (nodeAddress nd) (knownNodes nd) b (network nd) (output nd))) →
  preserves R (handleTx request).
Proof.
  intros R_bc.
  assert (HsetBc : ∀ b, preserves R (setBc b)).
  { intros b nd r nd' [= <- <-]. apply R_bc. }
  assert (Hknown : ∀ i, preserves R (knownNode i)).
  { intros i nd r nd'. unfold knownNode, get, mbind, M_bind, mret, M_ret, raise.
    destruct (knownNodes nd !! i); intros [= <- <-]; apply R_refl. }
  unfold handleTx, sendInv.
  repeat first [apply HsetBc | apply Hknown | preserves_step].
Qed.
End Preserve.

Lemma sameSetting_refl (nd : Node) : sameSetting nd nd.
Proof. by repeat split. Qed.

Lemma sameSetting_trans (nd1 nd2 nd3 : Node) :
  sameSetting nd1 nd2 → sameSetting nd2 nd3 → sameSetting nd1 nd3.
Proof.
  intros (Ha & Hn & Ho) (Ha' & Hn' & Ho'). repeat split; [congruence..|].
  by etrans.
Qed.

Lemma sameSetting_printed (nd : Node) (evs : list event) :
  sameSetting nd (printed nd evs).
Proof. repeat split. by apply prefix_app_r. Qed.

(** The handlers that only answer or print, [getaddr], [ping] and
    [pong]: however they end, nothing but the output has changed, and the
    output has only been added to. *)
Theorem reply_handlers_change_output_only (request : list byte) (nd nd' : Node)
    (r : result unit) :
  handleGetAddr request nd = (r, nd')
  ∨ handlePing request nd = (r, nd')
  ∨ handlePong request nd = (r, nd') →
  onlyOutput nd nd'.
Proof.
  assert (Hrefl : ∀ nd, onlyOutput nd nd).
  { intros nd0. split; [apply sameSetting_refl|done]. }
  assert (Htrans : ∀ nd1 nd2 nd3,
    onlyOutput nd1 nd2 → onlyOutput nd2 nd3 → onlyOutput nd1 nd3).
  { intros nd1 nd2 nd3 (Hs & Hk & Hb) (Hs' & Hk' & Hb').
    split; [by eapply sameSetting_trans|]. split; congruence. }
  assert (Hprinted : ∀ nd evs, onlyOutput nd (printed nd evs)).
  { intros nd0 evs. split; [apply sameSetting_printed|done]. }
  intros [E|[E|E]].
  - by apply (preserves_handleGetAddr onlyOutput Hrefl Htrans Hprinted request nd r).
  - by apply (preserves_handlePing onlyOutput Hrefl Htrans Hprinted request nd r).
  - by apply (preserves_handlePong onlyOutput Hrefl Htrans Hprinted request nd r).
Qed.

(** The [version] and [addr] handlers never touch the ledger, the node's
    address or the network, and only add to the output, however they
    end. *)
Theorem version_addr_keep_ledger (request : list byte) (nd nd' : Node)
    (r : result unit) :
  handleVersion request nd = (r, nd') ∨ handleAddr request nd = (r, nd') →
  sameSetting nd nd' ∧ bc nd' = bc nd.
Proof.
  set (R := λ nd nd' : Node, sameSetting nd nd' ∧ bc nd' = bc nd).
  assert (Hrefl : ∀ nd, R nd nd) by (intros nd0; split; [apply sameSetting_refl|done]).
  assert (Htrans : ∀ nd1 nd2 nd3, R nd1 nd2 → R nd2 nd3 → R nd1 nd3).
  { intros nd1 nd2 nd3 (Hs & Hb) (Hs' & Hb').
    split; [by eapply sameSetting_trans|congruence]. }
  assert (Hprinted : ∀ nd evs, R nd (printed nd evs)).
  { intros nd0 evs. split; [apply sameSetting_printed|done]. }
  assert (Hknown : ∀ nd nodes,
    R nd (mkNode (nodeAddress nd) nodes (bc nd) (network nd) (output nd))).
  { intros nd0 nodes. by repeat split. }
  destruct (preserves_version_addr R Hrefl Htrans Hprinted request Hknown)
    as [Hv Ha].
  intros [E|E]; [by apply (Hv nd r)|by apply (Ha nd r)].
Qed.

(** The [tx] handler never touches the known nodes, the node's address or
    the network, and only adds to the output, however it ends. *)
Theorem handleTx_keeps_peers (request : list byte) (nd nd' : Node)
    (r : result unit) :
  handleTx request nd = (r, nd') →
  sameSetting nd nd' ∧ knownNodes nd' = knownNodes nd.
Proof.
  set (R := λ nd nd' : Node, sameSetting nd nd' ∧ knownNodes nd' = knownNodes nd).
  assert (Hrefl : ∀ nd, R nd nd) by (intros nd0; split; [apply sameSetting_refl|done]).
  assert (Htrans : ∀ nd1 nd2 nd3, R nd1 nd2 → R nd2 nd3 → R nd1 nd3).
  { intros nd1 nd2 nd3 (Hs & Hb) (Hs' & Hb').
    split; [by eapply sameSetting_trans|congruence]. }
  assert (Hprinted : ∀ nd evs, R nd (printed nd evs)).
  { intros nd0 evs. split; [apply sameSetting_printed|done]. }
  assert (Hbc : ∀ nd b,
    R nd (mkNode (nodeAddress nd) (knownNodes nd) b (network nd) (output nd))).
  { intros nd0 b. by repeat split. }
  intros E.
  by apply (preserves_handleTx R Hrefl Htrans Hprinted request Hbc nd r).
Qed.

(** ** The known nodes over a whole run *)

Lemma keeps_handleConnection (conn : Conn) :
  (∀ request, keeps (handleGetBlocks request)) →
  (∀ request, keeps (handleInv request)) →
  (∀ request, keeps (handleGetData request)) →
  (∀ request, keeps (handleBlock request)) →
  keeps (handleConnection conn).
Proof.
  intros HgetBlocks Hinv HgetData Hblock.
  set (R := λ nd nd' : Node,
    nodeAddress nd' = nodeAddress nd ∧ grows (knownNodes nd) (knownNodes nd')).
  assert (Hrefl : ∀ nd, R nd nd) by (intros nd; split; [done|apply grows_refl]).
  assert (Htrans : ∀ nd1 nd2 nd3, R nd1 nd2 → R nd2 nd3 → R nd1 nd3).
  { intros nd1 nd2 nd3 [Ha Hg] [Ha' Hg'].
    split; [congruence|by eapply grows_trans]. }
  assert (Hprinted : ∀ nd evs, R nd (printed nd evs)).
  { intros nd evs. split; [done|apply grows_refl]. }
  assert (Hbc : ∀ nd b,
    R nd (mkNode (nodeAddress nd) (knownNodes nd) b (network nd) (output nd))).
  { intros nd b. split; [done|apply grows_refl]. }
  change (preserves R (handleConnection conn)). unfold handleConnection.
  apply preserves_defer; [done..|by apply preserves_emit|].
  apply preserves_bind; [done..|by apply preserves_connRead|].
  intros request. cbv zeta.
  repeat case_decide.
  - apply keeps_handleVersion.
  - apply HgetBlocks.
  - apply Hinv.
  - apply HgetData.
  - apply Hblock.
  - by apply preserves_handleTx.
  - apply keeps_handleAddr.
  - by apply preserves_handleGetAddr.
  - by apply preserves_handlePing.
  - by apply preserves_handlePong.
  - by apply preserves_emit.
Qed.

Lemma keeps_acceptLoop (arrivals : list (option Conn)) :
  (∀ conn, keeps (handleConnection conn)) → keeps (acceptLoop arrivals).
Proof.
  intros Hconn. induction arrivals as [|[conn|] arrivals IH]; cbn [acceptLoop].
  - apply keeps_ret.
  - apply keeps_bind; [apply Hconn|]. by intros _.
  - intros nd r nd' [= <- <-]. split; [done|apply grows_refl].
Qed.

(** Over a whole run of a node, however it ends and whatever arrives,
    provided the four handlers that are not in the source only ever append
    unknown addresses: the node's address is the one it was started with,
    the first known node stays the first, the known nodes stay without
    repetition, and no known node is forgotten. *)
Theorem knownNodes_over_run (address : string) (listenOk : bool)
    (arrivals : list (option Conn)) (nd nd' : Node) (r : result unit) :
  (∀ request, keeps (handleGetBlocks request)) →
  (∀ request, keeps (handleInv request)) →
  (∀ request, keeps (handleGetData request)) →
  (∀ request, keeps (handleBlock request)) →
  StartNode address listenOk arrivals nd = (r, nd') →
  nodeAddress nd' = address
  ∧ (∀ first, knownNodes nd !! 0%nat = Some first →
              knownNodes nd' !! 0%nat = Some first)
  ∧ (NoDup (knownNodes nd) → NoDup (knownNodes nd'))
  ∧ (∀ node, node ∈ knownNodes nd → node ∈ knownNodes nd').
Proof.
  intros HgetBlocks Hinv HgetData Hblock Hrun.
  set (nd1 := mkNode address (knownNodes nd) (bc nd) (network nd) (output nd)).
  assert (Hrest : keeps (
    if listenOk then
      setBc NewBlockchain;;
      first ← knownNode 0;
      (if decide (address ≠ first) then sendVersion first else mret ());;
      acceptLoop arrivals
    else logPanic ListenError)).
  { destruct listenOk.
    - apply keeps_bind.
      { intros nd0 r0 nd0' [= <- <-]. split; [done|apply grows_refl]. }
      intros _. apply keeps_bind.
      { intros nd0 r0 nd0'. unfold knownNode, get, mbind, M_bind, mret, M_ret, raise.
        destruct (knownNodes nd0 !! 0%nat); intros [= <- <-];
          (split; [done|apply grows_refl]). }
      intros first. apply keeps_bind.
      { case_decide; [|apply keeps_ret]. unfold sendVersion.
        apply keeps_bind; [apply keeps_get|]. intros nd0. apply keeps_sendMessage. }
      intros _. apply keeps_acceptLoop. intros conn.
      by apply keeps_handleConnection.
    - intros nd0 r0 nd0' [= <- <-]. split; [done|apply grows_refl]. }
  assert (E : StartNode address listenOk arrivals nd
              = (if listenOk then
                   setBc NewBlockchain;;
                   first ← knownNode 0;
                   (if decide (address ≠ first) then sendVersion first
                    else mret ());;
                   acceptLoop arrivals
                 else logPanic ListenError) nd1) by reflexivity.
  rewrite E in Hrun. apply Hrest in Hrun as [Haddr Hgrows].
  change (knownNodes nd1) with (knownNodes nd) in Hgrows.
  split; [done|]. split; [|split].
  - intros first. by apply grows_first.
  - by apply grows_NoDup.
  - destruct Hgrows as (added & -> & _). intros node Hnode.
    apply elem_of_app. by left.
Qed.

(** ** What a connection can change *)

(** Because the payload is never read, a connection that does not spell
    one of the four commands handled outside the source changes nothing
    but the output, however it ends: through [handleConnection] no
    address is learnt and no transaction reaches the ledger. *)
Theorem handleConnection_changes_output_only (conn : Conn) (nd nd' : Node)
    (r : result unit) :
  bytesToCommand (take commandLength (readable conn))
    ∉ [cmdGetBlocks; cmdInv; cmdGetData; cmdBlock] →
  handleConnection conn nd = (r, nd') →
  onlyOutput nd nd'.
Proof.
  intros Hcmd.
  assert (Hout : ∀ evs, onlyOutput nd (printed nd evs)).
  { intros evs. split; [apply sameSetting_printed|done]. }
  assert (Hclose : ∀ (body : M unit) r1 evs,
    body nd = (r1, printed nd evs) →
    defer (emit ClosedInbound) body nd = (r, nd') → onlyOutput nd nd').
  { intros body r1 evs E. rewrite (defer_close_run _ _ _ _ E), printed_app.
    intros [= <- <-]. apply Hout. }
  unfold handleConnection.
  destruct (decide (readable conn = [])) as [Hempty|Hne].
  - apply (Hclose _ (Panic ReadError) [Printed (LnPanic ReadError)]).
    apply bind_panic. unfold connRead. by rewrite Hempty.
  - set (request := take commandLength (readable conn)
                    ++ replicate (commandLength - length (readable conn)) x00).
    assert (Hreq : bytesToCommand request
                   = bytesToCommand (take commandLength (readable conn))).
    { apply bytesToCommand_zero_fill. }
    assert (Hslice : sliceFrom commandLength request = Ok []).
    { unfold sliceFrom.
      assert (length request = commandLength) as Hlen.
      { subst request. rewrite length_app, length_take, length_replicate. lia. }
      rewrite decide_True by lia. by rewrite drop_ge by lia. }
    rewrite !not_elem_of_cons, <- Hreq in Hcmd.
    destruct Hcmd as (HgetBlocks & Hinv & HgetData & Hblock & _).
    assert (Hswitch : ∀ body : list byte → M unit,
      defer (emit ClosedInbound)
        (connRead conn (replicate commandLength x00) ≫= body) nd
      = defer (emit ClosedInbound) (body request) nd).
    { intros body. unfold defer.
      by rewrite (bind_ok _ _ _ _ _ (connRead_run _ _ Hne)). }
    rewrite Hswitch. cbv zeta.
    repeat case_decide; try done.
    + apply (Hclose _ (Panic GobDecodeError) [Printed (LnPanic GobDecodeError)]).
      by apply (handler_decode_fail _ []); [|apply gobDec_EOF].
    + apply (Hclose _ (Panic GobDecodeError) [Printed (LnPanic GobDecodeError)]).
      by apply (handler_decode_fail _ []); [|apply gobDec_EOF].
    + apply (Hclose _ (Panic GobDecodeError) [Printed (LnPanic GobDecodeError)]).
      by apply (handler_decode_fail _ []); [|apply gobDec_EOF].
    + apply (Hclose _ (Panic GobDecodeError) [Printed (LnPanic GobDecodeError)]).
      by apply (handler_decode_fail _ []); [|apply gobDec_EOF].
    + apply (Hclose _ (Panic GobDecodeError) [Printed (LnPanic GobDecodeError)]).
      by apply (handler_decode_fail _ []); [|apply gobDec_EOF].
    + apply (Hclose _ (Panic GobDecodeError) [Printed (LnPanic GobDecodeError)]).
      by apply (handler_decode_fail _ []); [|apply gobDec_EOF].
    + by apply (Hclose _ (Ok ()) [Printed LnUnknownCommand]).
Qed.
End NodeMore.

(** ** The further results on the sample nodes *)

Lemma handleConnection_unknown_command_witness :
  handleConnection (mkConn (padded "hello" ++ [x01]))
                   (initialNode allReachable)
  = (Ok (),
     printed (initialNode allReachable) [Printed LnUnknownCommand; ClosedInbound]).
Proof.
  apply handleConnection_unknown_command; [discriminate|].
  apply (bool_decide_unpack _). vm_compute. exact I.
Defined.

Lemma handleConnection_read_failure_witness :
  handleConnection (mkConn []) (initialNode allReachable)
  = (Panic ReadError,
     printed (initialNode allReachable)
       [Printed (LnPanic ReadError); ClosedInbound])
  ∧ acceptLoop [Some (mkConn []); Some (mkConn (padded "hello"))]
               (initialNode allReachable)
    = (Panic ReadError,
       printed (initialNode allReachable)
         [Printed (LnPanic ReadError); ClosedInbound]).
Proof. apply handleConnection_read_failure. reflexivity. Defined.

Lemma handleConnection_dispatch_witness :
  handleConnection (mkConn (message cmdInv (mkInv "localhost:3001" "tx" [])))
                   (initialNode allReachable)
  = defer (emit ClosedInbound) (handleInv (padded cmdInv))
          (initialNode allReachable).
Proof.
  assert (Hne : readable (mkConn (message cmdInv (mkInv "localhost:3001" "tx" [])))
                ≠ []) by discriminate.
  destruct (handleConnection_dispatch _ (initialNode allReachable) Hne)
    as (_ & _ & Hinv & _).
  apply Hinv. reflexivity.
Defined.


Lemma StartNode_startup_witness :
  let nd := initialNode allBroken in
  let named := mkNode "localhost:3001" ["localhost:3000"] NewBlockchain allBroken in
  StartNode "localhost:3001" false [] nd
  = (Panic ListenError, named [Printed (LnPanic ListenError)])
  ∧ StartNode "localhost:3001" true [Some (mkConn (padded "hello"))] nd
    = (Panic WriteError,
       named [Dialed "localhost:3000"; Printed (LnPanic WriteError);
              Closed "localhost:3000"]).
Proof.
  destruct (StartNode_startup "localhost:3001" "localhost:3000"
              [Some (mkConn (padded "hello"))] (initialNode allBroken) eq_refl)
    as (_ & _ & Hother).
  split.
  - apply (proj1 (StartNode_startup "localhost:3001" "localhost:3000" []
                    (initialNode allBroken) eq_refl)).
  - apply Hother. discriminate.
Defined.

Lemma handleAddr_learns_witness :
  ∃ nodes,
    let nd' := mkNode "localhost:3001" nodes (bc (miner allReachable))
                      allReachable [] in
    handleAddr (message cmdAddr (mkAddr ["localhost:3002"; "localhost:3000"]))
               (miner allReachable)
    = (Ok (), nd')
    ∧ (∀ address, address ∈ nodes
                  ↔ address ∈ ["localhost:3000"]
                    ∨ address ∈ ["localhost:3002"; "localhost:3000"])
    ∧ handleAddr (message cmdAddr (mkAddr ["localhost:3002"; "localhost:3000"])) nd'
      = (Ok (), nd').
Proof.
  exact (handleAddr_learns (padded cmdAddr)
           (gobEnc (mkAddr ["localhost:3002"; "localhost:3000"])) _
           (miner allReachable) eq_refl eq_refl).
Defined.

Lemma getaddr_exchange_witness :
  ∃ nodes,
    handleAddr (message cmdAddr
                  (mkAddr ["localhost:3000"; "localhost:3001"; "localhost:3002"]))
               (miner allReachable)
    = (Ok (), mkNode "localhost:3001" nodes (bc (miner allReachable))
                     allReachable [])
    ∧ ∀ address, address ∈ nodes
                 ↔ address ∈ ["localhost:3000"]
                   ∨ address ∈ ["localhost:3000"; "localhost:3001"; "localhost:3002"].
Proof.
  exact (proj2 (proj2 (getaddr_exchange (miner allReachable)
                         (bootstrap allReachable) "localhost:3000"
                         eq_refl eq_refl eq_refl eq_refl))).
Defined.

Lemma version_handshake_witness :
  ∃ nodes,
    handleVersion (message cmdVersion (mkVersion 1 1 "localhost:3001"))
                  (bootstrap allReachable)
    = (Ok (),
       mkNode "localhost:3000" nodes NewBlockchain allReachable
              [Printed (LnReceivedVersion 1 1 "localhost:3001")])
    ∧ "localhost:3001" ∈ nodes
    ∧ ∀ address,
        address ∈ ["localhost:3000"; "localhost:3001"; "localhost:3002"] →
        address ∈ nodes.
Proof.
  refine (version_handshake (miner allReachable) (bootstrap allReachable)
            eq_refl _).
  discriminate.
Defined.

Lemma reply_handlers_change_output_only_witness :
  onlyOutput (bootstrap allBroken)
    (printed (bootstrap allBroken)
       [Dialed "localhost:3001"; Printed (LnPanic WriteError);
        Closed "localhost:3001"]).
Proof.
  apply (reply_handlers_change_output_only
           (message cmdGetAddr (mkGetAddr "localhost:3001"))
           (bootstrap allBroken) _ (Panic WriteError)).
  left. reflexivity.
Defined.

Lemma version_addr_keep_ledger_witness :
  let nd' := mkNode "localhost:3001" ["localhost:3000"; "localhost:3002"]
                    (mkLedger [[]] [[x01]]) allReachable [] in
  sameSetting (miner allReachable) nd' ∧ bc nd' = bc (miner allReachable).
Proof.
  apply (version_addr_keep_ledger
           (message cmdAddr (mkAddr ["localhost:3002"; "localhost:3000"]))
           (miner allReachable) _ (Ok ())).
  right. reflexivity.
Defined.

Lemma handleTx_keeps_peers_witness :
  let nd' := mkNode "localhost:3001" ["localhost:3000"]
                    (mkLedger [[]; [[x01]; [x68; x69]]] []) allReachable
                    [Printed LnReceivedTx; Printed (LnAddedTx [x68; x69])] in
  sameSetting (miner allReachable) nd'
  ∧ knownNodes nd' = knownNodes (miner allReachable).
Proof.
  apply (handleTx_keeps_peers
           (message cmdTx (mkTx "localhost:3002" [x68; x69]))
           (miner allReachable) _ (Ok ())).
  reflexivity.
Defined.

Lemma knownNodes_over_run_witness :
  let nd' := mkNode "localhost:3000" ["localhost:3000"] NewBlockchain
                    allReachable [Printed LnUnknownCommand; ClosedInbound] in
  nodeAddress nd' = "localhost:3000"
  ∧ (∀ first, knownNodes (initialNode allReachable) !! 0%nat = Some first →
              knownNodes nd' !! 0%nat = Some first)
  ∧ (NoDup (knownNodes (initialNode allReachable)) → NoDup (knownNodes nd'))
  ∧ (∀ node, node ∈ knownNodes (initialNode allReachable) →
             node ∈ knownNodes nd').
Proof.
  apply (knownNodes_over_run "localhost:3000" true
           [Some (mkConn (padded "hello"))] (initialNode allReachable) _ (Ok ()));
    try (intros request; apply keeps_ret).
  reflexivity.
Defined.

Lemma handleConnection_changes_output_only_witness :
  onlyOutput (initialNode allReachable)
    (printed (initialNode allReachable)
       [Printed (LnPanic GobDecodeError); ClosedInbound]).
Proof.
  apply (handleConnection_changes_output_only
           (mkConn (message cmdAddr (mkAddr ["localhost:3001"])))
           (initialNode allReachable) _ (Panic GobDecodeError)).
  - apply (bool_decide_unpack _). vm_compute. exact I.
  - reflexivity.
Defined.
